(** * A fixed-capacity ring queue (queue.c, queue.h, configure.h, cli.c)

    Shallow embedding of the ring-queue engine and of the command-line
    program around it (its commands, the two queue files and [main]),
    followed by the properties of the specification that were checked
    against them and by further properties read off the code.

    Conventions.
    - [unsigned] and [uint32_t] values are integers in [Z]; every arithmetic
      result of type [unsigned] is reduced with [u32].
    - [QUEUE_MAX_LENGTH] is a compile-time constant of the C program and a
      parameter here (10 by default, 5 in queue-test.c). The properties are
      proved for [0 < QUEUE_MAX_LENGTH < 2^31], where [begin + size] and the
      sum of two sizes fit in an [unsigned].
    - The storage of a queue is a list of [QUEUE_MAX_LENGTH] values; every
      index into it is a [begin] or a remainder modulo [QUEUE_MAX_LENGTH].
    - A failed [assert] terminates the program: operations that can reach one
      return an [outcome], whose [Abort] case carries the memory as it was
      when the assertion fired.
    - [int] return codes are kept as they are: [0] and [-1]. *)

From stdpp Require Import base numbers option list gmap.

Open Scope Z_scope.

(** ** Machine arithmetic *)

Definition u32 (z : Z) : Z := z mod 2 ^ 32.

Definition sizeof_uint32_t : Z := 4.

(** ** configure.h *)

Inductive QueueMode : Type :=
| QUEUE_MODE_FIFO
| QUEUE_MODE_LIFO.

Definition QUEUE_MODE : QueueMode := QUEUE_MODE_LIFO.

Definition QUEUE_MAX_LENGTH_default : Z := 10.

(** ** queue.h *)

Record Queue : Type := mkQueue {
  begin : Z;
  size : Z;
  array : list Z
}.

(** ** Control flow *)

(** Result of a call: it returns [a] leaving memory [s], or an assertion
    fails with memory [s]. *)
Inductive outcome (S A : Type) : Type :=
| Ret (a : A) (s : S)
| Abort (s : S).
Arguments Ret {S A} a s.
Arguments Abort {S A} s.

Definition returns {S A} (o : outcome S A) : Prop :=
  match o with Ret _ _ => True | Abort _ => False end.

(** [for (unsigned i = a; i != b; ++i) body], the bound [b] being unchanged
    by the body: the loop runs [(b - a) mod 2^32] times. *)
Fixpoint for_iter {S : Type} (n : nat) (i : Z) (body : Z → S → S) (s : S) : S :=
  match n with
  | O => s
  | S n' => for_iter n' (u32 (i + 1)) body (body i s)
  end.

Definition for_ne {S : Type} (a b : Z) (body : Z → S → S) (s : S) : S :=
  for_iter (Z.to_nat (u32 (b - a))) a body s.

(** The same loop when the body can fail an assertion ([None]). *)
Fixpoint for_iter_chk {S : Type} (n : nat) (i : Z) (body : Z → S → option S)
    (s : S) : option S :=
  match n with
  | O => Some s
  | S n' =>
      match body i s with
      | Some s' => for_iter_chk n' (u32 (i + 1)) body s'
      | None => None
      end
  end.

Definition for_ne_chk {S : Type} (a b : Z) (body : Z → S → option S) (s : S)
    : option S :=
  for_iter_chk (Z.to_nat (u32 (b - a))) a body s.

(** ** Memory *)

(** [memcpy (dst + d, src + s, nbytes)] between two arrays of [uint32_t]. *)
Definition memcpy (dst : list Z) (d : Z) (src : list Z) (s : Z) (nbytes : Z)
    : list Z :=
  let n := Z.to_nat (nbytes / sizeof_uint32_t) in
  take (Z.to_nat d) dst ++ take n (drop (Z.to_nat s) src)
    ++ drop (Z.to_nat d + n) dst.

(** A heap block as [malloc] hands it out: the number of bytes requested,
    the words stored through the returned [uint32_t *] (by word index, as
    on a flat memory) and the indices of those stores, oldest first. *)
Record Block : Type := mkBlock {
  block_bytes : Z;
  block_data : gmap Z Z;
  block_stores : list Z
}.

Definition malloc (nbytes : Z) : Block :=
  {| block_bytes := nbytes; block_data := ∅; block_stores := [] |}.

Definition block_store (b : Block) (i v : Z) : Block :=
  {| block_bytes := block_bytes b;
     block_data := <[i := v]> (block_data b);
     block_stores := block_stores b ++ [i] |}.

(** The store [p[i] = v] stays inside the block when the four bytes of
    word [i] do. *)
Definition in_block (b : Block) (i : Z) : bool :=
  (0 <=? i) && (sizeof_uint32_t * (i + 1) <=? block_bytes b).

(** The first [n] words of a block, as [memcpy] reads them (a word never
    stored reads as 0 here). *)
Definition block_words (b : Block) (n : Z) : list Z :=
  (λ i, default 0 (block_data b !! i)) <$> seqZ 0 n.

(** ** queue.c *)

Section queue.

Variable QUEUE_MAX_LENGTH : Z.

Definition queue_init : Queue :=
  {| begin := 0; size := 0;
     array := replicate (Z.to_nat QUEUE_MAX_LENGTH) 0 |}.

Definition queue_push_back (queue : Queue) (value : Z) : Z * Queue :=
  if size queue =? QUEUE_MAX_LENGTH then (-1, queue)
  else
    let begin' :=
      if begin queue =? 0 then QUEUE_MAX_LENGTH - 1
      else u32 (begin queue - 1) in
    (0, {| begin := begin';
           size := u32 (size queue + 1);
           array := <[Z.to_nat begin' := value]> (array queue) |}).

(** The second component is the value stored through the [value] pointer,
    if any. *)
Definition queue_pop_back (queue : Queue) : Z * option Z * Queue :=
  if size queue =? 0 then (-1, None, queue)
  else
    let value := array queue !!! Z.to_nat (begin queue) in
    let begin' :=
      if begin queue =? QUEUE_MAX_LENGTH - 1 then 0
      else u32 (begin queue + 1) in
    (0, Some value,
     {| begin := begin'; size := u32 (size queue - 1);
        array := array queue |}).

(** [None] when [assert(index < queue->size)] fails. *)
Definition queue_get_value (queue : Queue) (index : Z) : option Z :=
  if index <? size queue then
    Some (array queue !!! Z.to_nat (u32 (begin queue + index) mod QUEUE_MAX_LENGTH))
  else None.

Definition queue_pop_front (queue : Queue) : outcome Queue (Z * option Z) :=
  if size queue =? 0 then Ret (-1, None) queue
  else
    match queue_get_value queue (u32 (size queue - 1)) with
    | None => Abort queue
    | Some value =>
        Ret (0, Some value)
            {| begin := begin queue; size := u32 (size queue - 1);
               array := array queue |}
    end.

(** The loop of [queue_find], [n] iterations left, at index [i]. The second
    component of the result is the value stored through [index]. *)
Fixpoint queue_find_from (n : nat) (i : Z) (queue : Queue) (value : Z)
    : outcome Queue (Z * option Z) :=
  match n with
  | O => Ret (-1, None) queue
  | S n' =>
      match queue_get_value queue i with
      | None => Abort queue
      | Some v =>
          if v =? value then Ret (0, Some i) queue
          else queue_find_from n' (u32 (i + 1)) queue value
      end
  end.

Definition queue_find (queue : Queue) (value : Z)
    : outcome Queue (Z * option Z) :=
  queue_find_from (Z.to_nat (u32 (size queue - 0))) 0 queue value.

Definition queue_remove_body (_i : Z) (arr : list Z) : list Z :=
  let i := _i mod QUEUE_MAX_LENGTH in
  <[Z.to_nat i := arr !!! Z.to_nat (u32 (_i + 1) mod QUEUE_MAX_LENGTH)]> arr.

Definition queue_remove (queue : Queue) (index : Z) : outcome Queue unit :=
  if index <? size queue then
    let size' := u32 (size queue - 1) in
    Ret tt
        {| begin := begin queue; size := size';
           array := for_ne (u32 (begin queue + index))
                           (u32 (begin queue + size'))
                           queue_remove_body (array queue) |}
  else Abort queue.

(** Lines 86-93 of queue.c: the scratch buffer and the two loops that fill
    it. [None] when an assertion of [queue_get_value] fails. *)
Definition queue_merge_interleave (queue_into queue2 : Queue) (i : Z)
    (new_queue_array : Block) : option Block :=
  v1 ← queue_get_value queue_into i;
  let new_queue_array := block_store new_queue_array (u32 (2 * i)) v1 in
  v2 ← queue_get_value queue2 i;
  Some (block_store new_queue_array (u32 (2 * i + 1)) v2).

Definition queue_merge_tail (min_queue max_queue : Queue) (i : Z)
    (new_queue_array : Block) : option Block :=
  v ← queue_get_value max_queue i;
  Some (block_store new_queue_array (u32 (size min_queue + i)) v).

Definition queue_merge_scratch (queue_into queue2 : Queue) : option Block :=
  let total_len := u32 (size queue_into + size queue2) in
  let min_queue := if size queue_into <? size queue2 then queue_into else queue2 in
  let max_queue := if size queue2 <=? size queue_into then queue_into else queue2 in
  let new_queue_array := malloc total_len in
  new_queue_array ← for_ne_chk 0 (size min_queue)
                       (queue_merge_interleave queue_into queue2) new_queue_array;
  for_ne_chk (size min_queue) (size max_queue)
             (queue_merge_tail min_queue max_queue) new_queue_array.

(** The memory of [queue_merge] is the pair of its two arguments. *)
Definition queue_merge (queues : Queue * Queue) : outcome (Queue * Queue) unit :=
  let '(queue_into, queue2) := queues in
  let total_len := u32 (size queue_into + size queue2) in
  if total_len <=? QUEUE_MAX_LENGTH then
    match queue_merge_scratch queue_into queue2 with
    | None => Abort queues
    | Some new_queue_array =>
        Ret tt
            ({| begin := 0; size := total_len;
                array := memcpy (array queue_into) 0
                                (block_words new_queue_array total_len) 0
                                (total_len * sizeof_uint32_t) |},
             {| begin := begin queue2; size := 0; array := array queue2 |})
    end
  else Abort queues.

Definition queue_copy_to (queue : Queue) (destination : list Z) : list Z :=
  if u32 (begin queue + size queue) <=? QUEUE_MAX_LENGTH then
    memcpy destination 0 (array queue) (begin queue)
           (size queue * sizeof_uint32_t)
  else
    let first_portion_len := u32 (QUEUE_MAX_LENGTH - begin queue) in
    let second_portion_len :=
      u32 (u32 (size queue + begin queue) - QUEUE_MAX_LENGTH) in
    let destination :=
      memcpy destination 0 (array queue) (begin queue)
             (first_portion_len * sizeof_uint32_t) in
    memcpy destination first_portion_len (array queue) 0
           (second_portion_len * sizeof_uint32_t).

End queue.

(** ** cli.c

    The memory of a command is the array [queues[2]]. An argument string is
    represented by the integer that [strtol] / [strtoull] reads from it, and
    the standard output by the list of values handed to
    [printf("%" PRIi32 ...)]. *)

Definition queues_get (queues : Queue * Queue) (queue_number : Z) : Queue :=
  if queue_number =? 0 then queues.1 else queues.2.

Definition queues_set (queues : Queue * Queue) (queue_number : Z) (q : Queue)
    : Queue * Queue :=
  if queue_number =? 0 then (q, queues.2) else (queues.1, q).

Definition cli_get_queue_number (arg : Z) : Z :=
  let queue_number := arg in
  if negb (queue_number =? 1) && negb (queue_number =? 2) then -1
  else queue_number - 1.

(** A file of the program: the [uint32_t] values it holds, in file order,
    or [None] when [fopen (..., "r")] fails; whether [fopen (..., "w")]
    succeeds; and how many calls of [fwrite] succeed once it is open. *)
Record File : Type := mkFile {
  file_data : option (list Z);
  file_writable : bool;
  file_room : nat
}.

(** How a run of the program ends: the exit status, whether [cli_help] was
    called, and the values printed. *)
Record Exit : Type := mkExit {
  exit_code : Z;
  help_shown : bool;
  printed : list Z
}.

Section cli.

Variable QUEUE_MAX_LENGTH : Z.
Variable QUEUE_MODE : QueueMode.

Definition cli_add_to_queue (argc : Z) (arg1 arg2 : Z) (queues : Queue * Queue)
    : outcome (Queue * Queue) Z :=
  if argc <? 3 then Ret (-1) queues
  else
    let queue_number := cli_get_queue_number arg1 in
    if queue_number =? -1 then Ret (-1) queues
    else
      let element := u32 arg2 in
      let '(rc, queue) :=
        queue_push_back QUEUE_MAX_LENGTH (queues_get queues queue_number) element in
      Ret rc (queues_set queues queue_number queue).

(** The result is the return code and what was printed. *)
Definition cli_dequeue (argc : Z) (arg1 : Z) (queues : Queue * Queue)
    : outcome (Queue * Queue) (Z * list Z) :=
  if argc <? 2 then Ret (-1, []) queues
  else
    let queue_number := cli_get_queue_number arg1 in
    if queue_number =? -1 then Ret (-1, []) queues
    else
      let queue := queues_get queues queue_number in
      let popped :=
        match QUEUE_MODE with
        | QUEUE_MODE_FIFO =>
            let '(rc, value, queue) := queue_pop_back QUEUE_MAX_LENGTH queue in
            Ret (rc, value) queue
        | QUEUE_MODE_LIFO => queue_pop_front QUEUE_MAX_LENGTH queue
        end in
      match popped with
      | Abort queue => Abort (queues_set queues queue_number queue)
      | Ret (rc, value) queue =>
          if rc =? -1 then Ret (-1, []) (queues_set queues queue_number queue)
          else Ret (0, option_list value) (queues_set queues queue_number queue)
      end.

Definition cli_merge_queues (queues : Queue * Queue)
    : outcome (Queue * Queue) Z :=
  if QUEUE_MAX_LENGTH <=? u32 (size queues.1 + size queues.2) then
    Ret (-1) queues
  else
    match queue_merge QUEUE_MAX_LENGTH queues with
    | Ret _ queues => Ret 0 queues
    | Abort queues => Abort queues
    end.

(** In what follows [None] stands for an execution whose behaviour the C
    language leaves undefined: the read of a variable that was never
    written, a shift by the width of the type, a store outside an array. *)

Definition cli_command_from_arg (command_id : Z) (converted : bool) : Z :=
  if (command_id <? 0) || (6 <? command_id) then -1
  else if converted then command_id
  else -1.

Definition cli_remove_from_queue (argc : Z) (arg1 arg2 : Z)
    (queues : Queue * Queue) : option (outcome (Queue * Queue) Z) :=
  if argc <? 3 then Some (Ret (-1) queues)
  else
    let queue_number := cli_get_queue_number arg1 in
    if queue_number =? -1 then Some (Ret (-1) queues)
    else
      let queue := queues_get queues queue_number in
      let value := u32 arg2 in
      match queue_find QUEUE_MAX_LENGTH queue value with
      | Abort queue => Some (Abort (queues_set queues queue_number queue))
      | Ret (rc, index) queue =>
          if rc =? -1 then Some (Ret (-1) (queues_set queues queue_number queue))
          else
            index ← index;
            match queue_remove QUEUE_MAX_LENGTH queue index with
            | Abort queue => Some (Abort (queues_set queues queue_number queue))
            | Ret _ queue => Some (Ret 0 (queues_set queues queue_number queue))
            end
      end.

(** Body of the printing loops: one more value on the standard output. *)
Definition cli_print_value (queue : Queue) (i : Z) (out : list Z)
    : option (list Z) :=
  v ← queue_get_value QUEUE_MAX_LENGTH queue i;
  Some (out ++ [v]).

(** The output starts with the size, printed with [%u]. *)
Definition cli_print_size_and_contents (argc : Z) (arg1 : Z)
    (queues : Queue * Queue) : outcome (Queue * Queue) (Z * list Z) :=
  if argc <? 2 then Ret (-1, []) queues
  else
    let queue_number := cli_get_queue_number arg1 in
    if queue_number =? -1 then Ret (-1, []) queues
    else
      let queue := queues_get queues queue_number in
      match for_ne_chk 0 (size queue) (cli_print_value queue) [size queue] with
      | None => Abort queues
      | Some out => Ret (0, out) queues
      end.

Definition cli_print_contents (argc : Z) (arg1 : Z) (queues : Queue * Queue)
    : outcome (Queue * Queue) (Z * list Z) :=
  if argc <? 2 then Ret (-1, []) queues
  else
    let queue_number := cli_get_queue_number arg1 in
    if queue_number =? -1 then Ret (-1, []) queues
    else
      let queue := queues_get queues queue_number in
      match for_ne_chk 0 (size queue) (cli_print_value queue) [] with
      | None => Abort queues
      | Some out => Ret (0, out) queues
      end.

Definition cli_find_bit_body (queue : Queue) (mask : Z) (i : Z) (out : list Z)
    : option (list Z) :=
  item ← queue_get_value QUEUE_MAX_LENGTH queue i;
  Some (if Z.land item mask =? 0 then out else out ++ [item]).

(** [arg2] is what [strtoull] reads, an [unsigned long long]. *)
Definition cli_find_bit (argc : Z) (arg1 arg2 : Z) (queues : Queue * Queue)
    : option (outcome (Queue * Queue) (Z * list Z)) :=
  if argc <? 3 then Some (Ret (-1, []) queues)
  else
    let queue_number := cli_get_queue_number arg1 in
    if queue_number =? -1 then Some (Ret (-1, []) queues)
    else
      let queue := queues_get queues queue_number in
      let bit_number := arg2 in
      if 32 <? bit_number then Some (Ret (-1, []) queues)
      else
        mask ← (if bit_number <? 32 then Some (u32 (Z.shiftl 1 bit_number))
                else None);
        match for_ne_chk 0 (size queue) (cli_find_bit_body queue mask) [] with
        | None => Some (Abort queues)
        | Some out => Some (Ret (0, out) queues)
        end.

(** The loop of [load_queue] on the values that [fread] still delivers. *)
Fixpoint load_queue_from (values : list Z) (counter : Z) (arr : list Z)
    : option (Z * list Z) :=
  match values with
  | [] => Some (counter, arr)
  | value :: values' =>
      if (0 <=? counter) && (counter <? QUEUE_MAX_LENGTH) then
        load_queue_from values' (u32 (counter + 1))
                        (<[Z.to_nat counter := value]> arr)
      else None
  end.

(** [queue] is the structure as it is before the call; nothing else
    initializes it in [main]. *)
Definition load_queue (queue : Queue) (file : File) : option Queue :=
  match file_data file with
  | None => Some queue
  | Some values =>
      '(counter, arr) ← load_queue_from values 0 (array queue);
      Some {| begin := 0; size := counter; array := arr |}
  end.

(** The loop of [save_queue], [n] iterations left, at index [i]; [room] is
    the number of calls of [fwrite] that still succeed. *)
Fixpoint save_queue_from (n : nat) (i : Z) (queue : Queue) (room : nat)
    (written : list Z) : outcome (list Z) unit :=
  match n with
  | O => Ret tt written
  | S n' =>
      match queue_get_value QUEUE_MAX_LENGTH queue i with
      | None => Abort written
      | Some value =>
          match room with
          | O => Ret tt written
          | S room' =>
              save_queue_from n' (u32 (i + 1)) queue room' (written ++ [value])
          end
      end
  end.

Definition file_write (file : File) (written : list Z) : File :=
  {| file_data := Some written; file_writable := file_writable file;
     file_room := file_room file |}.

Definition save_queue (queue : Queue) (file : File) : outcome File unit :=
  if file_writable file then
    match save_queue_from (Z.to_nat (u32 (size queue - 0))) 0 queue
                          (file_room file) [] with
    | Ret _ written => Ret tt (file_write file written)
    | Abort written => Abort (file_write file written)
    end
  else Ret tt file.

(** A command that prints nothing. *)
Definition unprinted (r : outcome (Queue * Queue) Z)
    : outcome (Queue * Queue) (Z * list Z) :=
  match r with
  | Ret rc queues => Ret (rc, []) queues
  | Abort queues => Abort queues
  end.

(** The [switch] of [main] (lines 351-377 of cli.c), called with the [argc]
    of [main]: the return code and the output of the selected command; the
    outer [None] is the [default] case. *)
Definition main_switch (command_id : Z) (argc : Z) (arg1 arg2 : Z)
    (queues : Queue * Queue)
    : option (option (outcome (Queue * Queue) (Z * list Z))) :=
  if command_id =? 0 then
    Some (Some (unprinted (cli_add_to_queue (argc - 1) arg1 arg2 queues)))
  else if command_id =? 1 then
    Some (unprinted <$> cli_remove_from_queue (argc - 1) arg1 arg2 queues)
  else if command_id =? 2 then
    Some (Some (cli_print_size_and_contents (argc - 1) arg1 queues))
  else if command_id =? 3 then
    Some (Some (cli_print_contents (argc - 1) arg1 queues))
  else if command_id =? 4 then
    Some (Some (unprinted (cli_merge_queues queues)))
  else if command_id =? 5 then
    Some (cli_find_bit (argc - 1) arg1 arg2 queues)
  else if command_id =? 6 then
    Some (Some (cli_dequeue (argc - 1) arg1 queues))
  else None.

(** [main (argc, argv)]: [cmd] and [converted] stand for [argv[1]] (the
    number [strtol] reads in base 16 and whether it consumed the whole
    string), [arg1] and [arg2] for [argv[2]] and [argv[3]]; [stack] is the
    content of the local array [queues] on entry; [files] are [.queue1] and
    [.queue2]. *)
Definition main (argc : Z) (cmd : Z) (converted : bool) (arg1 arg2 : Z)
    (stack : Queue * Queue) (files : File * File)
    : option (outcome (File * File) Exit) :=
  if argc <? 2 then
    Some (Ret {| exit_code := 1; help_shown := true; printed := [] |} files)
  else
    let command_id := cli_command_from_arg cmd converted in
    if command_id =? -1 then
      Some (Ret {| exit_code := 1; help_shown := true; printed := [] |} files)
    else
      queue0 ← load_queue stack.1 files.1;
      queue1 ← load_queue stack.2 files.2;
      match main_switch command_id argc arg1 arg2 (queue0, queue1) with
      | None =>
          Some (Ret {| exit_code := 1; help_shown := true; printed := [] |}
                    files)
      | Some command =>
          command ← command;
          match command with
          | Abort _ => Some (Abort files)
          | Ret (rc, out) queues =>
              if rc =? -1 then
                Some (Ret {| exit_code := 1; help_shown := false;
                             printed := out |} files)
              else
                match save_queue queues.1 files.1 with
                | Abort file1 => Some (Abort (file1, files.2))
                | Ret _ file1 =>
                    match save_queue queues.2 files.2 with
                    | Abort file2 => Some (Abort (file1, file2))
                    | Ret _ file2 =>
                        Some (Ret {| exit_code := 0; help_shown := false;
                                     printed := out |} (file1, file2))
                    end
                end
          end
      end.

End cli.

(** ** Vocabulary of the specification *)

Section spec.

Variable N : Z.

(** The representation invariant of section 3, with the length of the
    storage. *)
Definition wf (q : Queue) : Prop :=
  (0 ≤ begin q < N) ∧ (0 ≤ size q ≤ N) ∧ length (array q) = Z.to_nat N.

(** The logical sequence: offset [i] lives in slot [(begin + i) mod N]. *)
Definition logical (q : Queue) : list Z :=
  (λ i, array q !!! Z.to_nat ((begin q + i) mod N)) <$> seqZ 0 (size q).

(** [push_back] of [v1 .. vk] in this order; [None] as soon as one fails. *)
Fixpoint push_all (vs : list Z) (q : Queue) : option Queue :=
  match vs with
  | [] => Some q
  | v :: vs' =>
      let '(rc, q') := queue_push_back N q v in
      if rc =? 0 then push_all vs' q' else None
  end.

(** [k] calls of [pop_back], with the values they return in call order;
    [None] as soon as one fails. *)
Fixpoint pop_back_n (k : nat) (q : Queue) : option (list Z * Queue) :=
  match k with
  | O => Some ([], q)
  | S k' =>
      match queue_pop_back N q with
      | (0, Some v, q') =>
          '(vs, q'') ← pop_back_n k' q'; Some (v :: vs, q'')
      | _ => None
      end
  end.

(** The same for [pop_front]; the result also lists [begin] after each
    call. *)
Fixpoint pop_front_n (k : nat) (q : Queue)
    : option (list Z * list Z * Queue) :=
  match k with
  | O => Some ([], [], q)
  | S k' =>
      match queue_pop_front N q with
      | Ret (0, Some v) q' =>
          '(vs, bs, q'') ← pop_front_n k' q';
          Some (v :: vs, begin q' :: bs, q'')
      | _ => None
      end
  end.

(** A reference deque that is not circular: a plain list, offset 0 first,
    bounded by [N]. *)
Inductive deque_op : Type :=
| OpPushBack (v : Z)
| OpPopBack
| OpPopFront.

Definition ref_apply (op : deque_op) (l : list Z) : list Z :=
  match op with
  | OpPushBack v => if decide (Z.of_nat (length l) = N) then l else v :: l
  | OpPopBack => drop 1 l
  | OpPopFront => take (length l - 1) l
  end.

Definition ref_run (ops : list deque_op) : list Z :=
  foldl (λ l op, ref_apply op l) [] ops.

Definition queue_apply (op : deque_op) (q : Queue) : option Queue :=
  match op with
  | OpPushBack v => Some (queue_push_back N q v).2
  | OpPopBack => Some (queue_pop_back N q).2
  | OpPopFront =>
      match queue_pop_front N q with
      | Ret _ q' => Some q'
      | Abort _ => None
      end
  end.

Fixpoint queue_run (ops : list deque_op) (q : Queue) : option Queue :=
  match ops with
  | [] => Some q
  | op :: ops' => q' ← queue_apply op q; queue_run ops' q'
  end.









(** A file that holds the values [vs], at most [N] of them, and can be
    rewritten with up to [N] values. *)
Definition file_ok (f : File) (vs : list Z) : Prop :=
  file_data f = Some vs ∧ Z.of_nat (length vs) ≤ N
  ∧ file_writable f = true ∧ N ≤ Z.of_nat (file_room f).

(** The file or value that the queue argument [arg1] (1 or 2) selects in a
    pair, and the pair with that component replaced. *)
Definition pick {A : Type} (arg1 : Z) (p : A * A) : A :=
  if arg1 =? 1 then p.1 else p.2.

Definition put {A : Type} (arg1 : Z) (p : A * A) (a : A) : A * A :=
  if arg1 =? 1 then (a, p.2) else (p.1, a).

(** Both files rewritten with the given sequences. *)
Definition rewritten (files : File * File) (vs : list Z * list Z)
    : File * File :=
  (file_write files.1 vs.1, file_write files.2 vs.2).

End spec.

(** ** The queues of queue-test.c (N = 5) *)

Definition test_initial : Queue :=
  {| begin := 3; size := 4; array := [3; 4; 0; 1; 2] |}.

Definition test_queue1 : Queue :=
  {| begin := 0; size := 3; array := [1; 3; 5; 0; 0] |}.

Definition test_queue2 : Queue :=
  {| begin := 0; size := 2; array := [2; 4; 0; 0; 0] |}.

(** Two queue files for that configuration, and a full one. *)
Definition test_file1 : File :=
  {| file_data := Some [1; 3; 5]; file_writable := true; file_room := 5 |}.

Definition test_file2 : File :=
  {| file_data := Some [2; 4]; file_writable := true; file_room := 5 |}.

Definition test_file_full : File :=
  {| file_data := Some [1; 2; 3; 4; 5]; file_writable := true;
     file_room := 5 |}.

Definition test_file_missing : File :=
  {| file_data := None; file_writable := true; file_room := 5 |}.

(** * Properties *)

(** ** Arithmetic of indices *)

Lemma u32_small z : 0 ≤ z < 2 ^ 32 → u32 z = z.
Proof. intros H. unfold u32. by apply Z.mod_small. Qed.

Lemma mod_wrap_lt n b k : 0 ≤ b + k < n → (b + k) mod n = b + k.
Proof. intros H. by apply Z.mod_small. Qed.

Lemma mod_wrap_ge n b k : n ≤ b + k < 2 * n → (b + k) mod n = b + k - n.
Proof.
  intros H. replace (b + k) with ((b + k - n) + 1 * n) by lia.
  rewrite Z.mod_add by lia. rewrite Z.mod_small; lia.
Qed.

(** Two offsets below [n] that share a slot are equal. *)
Lemma slot_inj n b k k' :
  0 ≤ b < n → 0 ≤ k < n → 0 ≤ k' < n →
  (b + k) mod n = (b + k') mod n → k = k'.
Proof.
  intros Hb Hk Hk' E.
  destruct (decide (b + k < n)), (decide (b + k' < n)).
  - rewrite !mod_wrap_lt in E; lia.
  - rewrite mod_wrap_lt, mod_wrap_ge in E; lia.
  - rewrite mod_wrap_ge, mod_wrap_lt in E; lia.
  - rewrite !mod_wrap_ge in E; lia.
Qed.

Lemma slot_range n z : 0 < n → 0 ≤ z mod n < n.
Proof. intros. by apply Z.mod_pos_bound. Qed.


(** ** The engine on a well-formed queue *)

Section engine.

Variable N : Z.
Hypothesis N_pos : 0 < N.
Hypothesis N_small : N < 2 ^ 31.

Lemma slot_nat_inj b k k' :
  0 ≤ b < N → 0 ≤ k < N → 0 ≤ k' < N →
  Z.to_nat ((b + k) mod N) = Z.to_nat ((b + k') mod N) → k = k'.
Proof.
  intros Hb Hk Hk' E.
  apply Z2Nat.inj in E; [|apply slot_range; lia|apply slot_range; lia].
  by apply slot_inj in E.
Qed.

Lemma slot_nat_lt (arr : list Z) z :
  length arr = Z.to_nat N → (Z.to_nat (z mod N) < length arr)%nat.
Proof. intros ->. pose proof (slot_range N z N_pos). lia. Qed.

Lemma wf_queue_init : wf N (queue_init N).
Proof.
  unfold wf, queue_init; simpl. rewrite length_replicate. lia.
Qed.

Lemma logical_queue_init : logical N (queue_init N) = [].
Proof. reflexivity. Qed.

Lemma logical_length q : length (logical N q) = Z.to_nat (size q).
Proof. unfold logical. by rewrite length_fmap, length_seqZ. Qed.

Lemma logical_lookup q (i : nat) :
  logical N q !! i =
    if decide (Z.of_nat i < size q)
    then Some (array q !!! Z.to_nat ((begin q + Z.of_nat i) mod N))
    else None.
Proof.
  unfold logical. rewrite list_lookup_fmap. case_decide.
  - by rewrite lookup_seqZ_lt.
  - by rewrite lookup_seqZ_ge by lia.
Qed.

(** [queue_get_value] reads the logical sequence. *)
Lemma queue_get_value_logical q i :
  wf N q → 0 ≤ i < size q →
  queue_get_value N q i = logical N q !! Z.to_nat i
  ∧ is_Some (queue_get_value N q i).
Proof.
  intros (Hb & Hs & _) Hi. unfold queue_get_value.
  destruct (Z.ltb_spec i (size q)); [|lia].
  rewrite logical_lookup, decide_True by lia.
  rewrite u32_small by lia. rewrite Z2Nat.id by lia. eauto.
Qed.

Lemma queue_get_value_abort q i :
  size q ≤ i → queue_get_value N q i = None.
Proof.
  intros Hi. unfold queue_get_value.
  destruct (Z.ltb_spec i (size q)); [lia|done].
Qed.

Lemma queue_push_back_full q v :
  size q = N → queue_push_back N q v = (-1, q).
Proof. intros E. unfold queue_push_back. by rewrite E, Z.eqb_refl. Qed.

Lemma queue_push_back_ok q v :
  wf N q → size q < N →
  ∃ q', queue_push_back N q v = (0, q') ∧ wf N q'
        ∧ size q' = size q + 1 ∧ logical N q' = v :: logical N q.
Proof.
  intros (Hb & Hs & Hl) Hlt. unfold queue_push_back.
  destruct (Z.eqb_spec (size q) N); [lia|].
  set (b' := if begin q =? 0 then N - 1 else u32 (begin q - 1)).
  assert (Hb' : 0 ≤ b' < N ∧ ∀ k, 0 ≤ k < N → (b' + (k + 1)) mod N = (begin q + k) mod N).
  { subst b'. destruct (Z.eqb_spec (begin q) 0) as [E|E].
    - split; [lia|]. intros k Hk. rewrite E.
      replace (N - 1 + (k + 1)) with (0 + k + 1 * N) by lia.
      by rewrite Z.mod_add by lia.
    - rewrite u32_small by lia. split; [lia|]. intros k Hk. f_equal. lia. }
  destruct Hb' as [Hb' Hshift].
  eexists; split; [reflexivity|]. rewrite u32_small by lia.
  split; [|split; [done|]].
  { unfold wf; simpl. rewrite length_insert. lia. }
  apply list_eq. intros i. rewrite logical_lookup; simpl.
  destruct i as [|i]; simpl.
  - rewrite decide_True by lia. f_equal.
    rewrite Z.add_0_r, Z.mod_small by lia.
    apply list_lookup_total_insert_eq. lia.
  - rewrite logical_lookup.
    destruct (decide (Z.of_nat i < size q)).
    + rewrite decide_True by lia. f_equal.
      replace (Z.of_nat (S i)) with (Z.of_nat i + 1) by lia.
      rewrite list_lookup_total_insert_ne; [by rewrite Hshift by lia|].
      rewrite <- (Z.mod_small b' N) at 1 by lia.
      rewrite <- (Z.add_0_r b') at 1.
      intros E. apply slot_nat_inj in E; lia.
    + rewrite decide_False by lia. done.
Qed.

Lemma queue_pop_back_empty q :
  size q = 0 → queue_pop_back N q = (-1, None, q).
Proof. intros E. unfold queue_pop_back. by rewrite E. Qed.

Lemma queue_pop_back_ok q :
  wf N q → 0 < size q →
  ∃ x q', queue_pop_back N q = (0, Some x, q') ∧ wf N q'
          ∧ size q' = size q - 1 ∧ logical N q = x :: logical N q'.
Proof.
  intros (Hb & Hs & Hl) Hpos. unfold queue_pop_back.
  destruct (Z.eqb_spec (size q) 0); [lia|].
  set (b' := if begin q =? N - 1 then 0 else u32 (begin q + 1)).
  assert (Hb' : 0 ≤ b' < N ∧ ∀ k, (b' + k) mod N = (begin q + (k + 1)) mod N).
  { subst b'. destruct (Z.eqb_spec (begin q) (N - 1)) as [E|E].
    - split; [lia|]. intros k. rewrite E.
      replace (N - 1 + (k + 1)) with (0 + k + 1 * N) by lia.
      by rewrite Z.mod_add by lia.
    - rewrite u32_small by lia. split; [lia|]. intros k. f_equal. lia. }
  destruct Hb' as [Hb' Hshift].
  do 2 eexists; split; [reflexivity|]. rewrite u32_small by lia.
  split; [|split; [done|]].
  { unfold wf; simpl. lia. }
  apply list_eq. intros i. rewrite logical_lookup.
  destruct i as [|i]; simpl.
  - rewrite decide_True by lia. by rewrite Z.add_0_r, Z.mod_small by lia.
  - rewrite logical_lookup; simpl.
    replace (Z.of_nat (S i)) with (Z.of_nat i + 1) by lia.
    rewrite Hshift.
    destruct (decide (Z.of_nat i + 1 < size q)).
    + by rewrite decide_True by lia.
    + by rewrite decide_False by lia.
Qed.

Lemma queue_pop_front_empty q :
  size q = 0 → queue_pop_front N q = Ret (-1, None) q.
Proof. intros E. unfold queue_pop_front. by rewrite E. Qed.

Lemma queue_pop_front_ok q :
  wf N q → 0 < size q →
  ∃ y q', queue_pop_front N q = Ret (0, Some y) q' ∧ wf N q'
          ∧ begin q' = begin q ∧ size q' = size q - 1
          ∧ logical N q = logical N q' ++ [y].
Proof.
  intros Hwf Hpos. pose proof Hwf as (Hb & Hs & Hl).
  unfold queue_pop_front.
  destruct (Z.eqb_spec (size q) 0); [lia|].
  rewrite u32_small by lia.
  destruct (queue_get_value_logical q (size q - 1) Hwf) as [E [y Hy]]; [lia|].
  rewrite Hy. rewrite Hy in E. symmetry in E.
  do 2 eexists; split; [reflexivity|].
  split; [|split; [done|split; [done|]]].
  { unfold wf; simpl. lia. }
  apply list_eq. intros i.
  destruct (decide (i < Z.to_nat (size q - 1))%nat) as [Hi|Hi].
  - rewrite lookup_app_l by (rewrite logical_length; simpl; lia).
    rewrite !logical_lookup; simpl.
    by rewrite !decide_True by lia.
  - rewrite lookup_app_r by (rewrite logical_length; simpl; lia).
    rewrite logical_length; simpl.
    destruct (decide (i = Z.to_nat (size q - 1))) as [->|Hne].
    + by rewrite Nat.sub_diag.
    + rewrite lookup_ge_None_2 by (rewrite logical_length; lia).
      destruct (i - Z.to_nat (size q - 1))%nat eqn:?; [lia|done].
Qed.

(** ** Sequences of pushes and pops *)

Lemma push_all_ok vs : ∀ q,
  wf N q → size q + Z.of_nat (length vs) ≤ N →
  ∃ q', push_all N vs q = Some q' ∧ wf N q'
        ∧ logical N q' = rev vs ++ logical N q.
Proof.
  induction vs as [|v vs IH]; intros q Hwf Hlen; simpl in *.
  - eauto.
  - destruct (queue_push_back_ok q v Hwf) as (q1 & E & Hwf1 & Hs1 & Hl1); [lia|].
    rewrite E; simpl.
    destruct (IH q1 Hwf1) as (q' & E' & Hwf' & Hl'); [lia|].
    exists q'. split; [done|]. split; [done|].
    by rewrite Hl', Hl1, <- app_assoc.
Qed.

Lemma pop_back_n_ok l1 : ∀ q l2,
  wf N q → logical N q = l1 ++ l2 →
  ∃ q', pop_back_n N (length l1) q = Some (l1, q') ∧ wf N q'
        ∧ logical N q' = l2.
Proof.
  induction l1 as [|x l1 IH]; intros q l2 Hwf Hl; simpl in *.
  - eauto.
  - assert (0 < size q) as Hpos.
    { pose proof (logical_length q) as E. rewrite Hl in E. simpl in E. lia. }
    destruct (queue_pop_back_ok q Hwf Hpos) as (x' & q1 & E & Hwf1 & _ & Hl1).
    rewrite E. rewrite Hl1 in Hl. injection Hl as -> Hl.
    destruct (IH q1 l2 Hwf1 Hl) as (q' & E' & Hwf' & Hl').
    rewrite E'; simpl. eauto.
Qed.

Lemma pop_front_n_ok l2 : ∀ q l1,
  wf N q → logical N q = l1 ++ rev l2 →
  ∃ q', pop_front_n N (length l2) q
          = Some (l2, replicate (length l2) (begin q), q')
        ∧ wf N q' ∧ begin q' = begin q ∧ logical N q' = l1.
Proof.
  induction l2 as [|y l2 IH]; intros q l1 Hwf Hl; simpl in *.
  - rewrite app_nil_r in Hl. eauto.
  - assert (0 < size q) as Hpos.
    { pose proof (logical_length q) as E. rewrite Hl in E.
      rewrite !length_app in E. simpl in E. lia. }
    destruct (queue_pop_front_ok q Hwf Hpos)
      as (y' & q1 & E & Hwf1 & Hb1 & _ & Hl1).
    rewrite E. rewrite Hl1, app_assoc in Hl.
    apply app_inj_tail in Hl as [Hl ->].
    destruct (IH q1 l1 Hwf1 Hl) as (q' & E' & Hwf' & Hb' & Hl').
    rewrite E'; simpl. rewrite Hb1. exists q'. split; [done|].
    split; [done|]. split; [congruence|done].
Qed.

(** C7. Starting from an empty queue, pushing [v1 .. vk] (k ≤ N) with
    [push_back] succeeds at every step, and [k] calls of [pop_back] then
    succeed and return [vk, ..., v1], the reverse of the insertion order. *)
Theorem push_back_pop_back_lifo (q : Queue) (vs : list Z) :
  wf N q → size q = 0 → Z.of_nat (length vs) ≤ N →
  ∃ q' q'', push_all N vs q = Some q'
            ∧ pop_back_n N (length vs) q' = Some (rev vs, q'')
            ∧ size q'' = 0.
Proof.
  intros Hwf H0 Hlen.
  destruct (push_all_ok vs q Hwf) as (q' & E & Hwf' & Hl'); [lia|].
  assert (logical N q = []) as Hnil.
  { apply nil_length_inv. rewrite logical_length. lia. }
  rewrite Hnil in Hl'.
  destruct (pop_back_n_ok (rev vs) q' [] Hwf' Hl') as (q'' & E' & Hwf'' & Hl'').
  rewrite length_rev in E'.
  exists q', q''. split; [done|]. split; [done|].
  pose proof (logical_length q'') as L. rewrite Hl'' in L. simpl in L.
  destruct Hwf'' as (_ & ? & _). lia.
Qed.

(** C8. Starting from an empty queue, pushing [v1 .. vk] (k ≤ N) with
    [push_back] succeeds at every step, and [k] calls of [pop_front] then
    succeed and return [v1, ..., vk], the insertion order; [begin] is the
    same after each [pop_front] as before the first one. *)
Theorem push_back_pop_front_fifo (q : Queue) (vs : list Z) :
  wf N q → size q = 0 → Z.of_nat (length vs) ≤ N →
  ∃ q' q'', push_all N vs q = Some q'
            ∧ pop_front_n N (length vs) q'
                = Some (vs, replicate (length vs) (begin q'), q'')
            ∧ size q'' = 0.
Proof.
  intros Hwf H0 Hlen.
  destruct (push_all_ok vs q Hwf) as (q' & E & Hwf' & Hl'); [lia|].
  assert (logical N q = []) as Hnil.
  { apply nil_length_inv. rewrite logical_length. lia. }
  rewrite Hnil, app_nil_r in Hl'.
  destruct (pop_front_n_ok vs q' [] Hwf' Hl')
    as (q'' & E' & Hwf'' & _ & Hl'').
  exists q', q''. split; [done|]. split; [done|].
  pose proof (logical_length q'') as L. rewrite Hl'' in L. simpl in L.
  destruct Hwf'' as (_ & ? & _). lia.
Qed.

(** ** Positional removal *)

(** The shifting loop of [queue_remove], started at offset [a] for [n]
    iterations: slot [begin + k] receives what slot [begin + k + 1] held,
    for [a ≤ k < a + n]; the other slots keep their value. *)
Lemma queue_remove_loop b n : ∀ a arr,
  0 ≤ b < N → 0 ≤ a → a + Z.of_nat n ≤ N - 1 →
  length arr = Z.to_nat N →
  let arr' := for_iter n (b + a) (queue_remove_body N) arr in
  length arr' = Z.to_nat N
  ∧ ∀ k, 0 ≤ k < N →
      arr' !!! Z.to_nat ((b + k) mod N) =
        if decide (a ≤ k < a + Z.of_nat n)
        then arr !!! Z.to_nat ((b + (k + 1)) mod N)
        else arr !!! Z.to_nat ((b + k) mod N).
Proof.
  induction n as [|n IH]; intros a arr Hb Ha Han Hlen; simpl.
  - split; [done|]. intros k Hk. by rewrite decide_False by lia.
  - rewrite u32_small by lia.
    replace (b + a + 1) with (b + (a + 1)) by lia.
    set (arr1 := queue_remove_body N (b + a) arr).
    assert (Hlen1 : length arr1 = Z.to_nat N).
    { subst arr1. unfold queue_remove_body. by rewrite length_insert. }
    assert (H1 : ∀ k, 0 ≤ k < N →
      arr1 !!! Z.to_nat ((b + k) mod N) =
        if decide (k = a) then arr !!! Z.to_nat ((b + (a + 1)) mod N)
        else arr !!! Z.to_nat ((b + k) mod N)).
    { intros k Hk. subst arr1. unfold queue_remove_body.
      rewrite u32_small by lia.
      replace (b + a + 1) with (b + (a + 1)) by lia.
      rewrite list_lookup_total_insert. case_decide as Hd.
      - destruct Hd as [Hd _]. apply slot_nat_inj in Hd; [|lia..].
        by rewrite decide_True by lia.
      - case_decide as Hka; [|done]. subst k. exfalso. apply Hd.
        split; [done|]. by apply slot_nat_lt. }
    destruct (IH (a + 1) arr1) as [IHlen IHk]; [lia..|done|].
    split; [done|]. intros k Hk. rewrite IHk by done.
    case_decide as Hd.
    + rewrite decide_True by lia. rewrite H1 by lia.
      by rewrite decide_False by lia.
    + rewrite H1 by lia. case_decide as Hka.
      * subst k. by rewrite decide_True by lia.
      * by rewrite decide_False by lia.
Qed.

Lemma queue_remove_abort q index :
  size q ≤ index → queue_remove N q index = Abort q.
Proof.
  intros H. unfold queue_remove.
  destruct (Z.ltb_spec index (size q)); [lia|done].
Qed.

Lemma queue_remove_ok q index :
  wf N q → 0 ≤ index < size q →
  ∃ q', queue_remove N q index = Ret tt q' ∧ wf N q'
        ∧ begin q' = begin q ∧ size q' = size q - 1
        ∧ (∀ k, 0 ≤ k < N →
             array q' !!! Z.to_nat ((begin q + k) mod N) =
               if decide (index ≤ k < size q - 1)
               then array q !!! Z.to_nat ((begin q + (k + 1)) mod N)
               else array q !!! Z.to_nat ((begin q + k) mod N))
        ∧ logical N q' = delete (Z.to_nat index) (logical N q).
Proof.
  intros (Hb & Hs & Hl) Hi. unfold queue_remove.
  destruct (Z.ltb_spec index (size q)); [|lia].
  unfold for_ne. rewrite !(u32_small (size q - 1)) by lia.
  rewrite !(u32_small (begin q + _)) by lia.
  rewrite u32_small by lia.
  replace (begin q + (size q - 1) - (begin q + index))
    with (size q - 1 - index) by lia.
  destruct (queue_remove_loop (begin q) (Z.to_nat (size q - 1 - index))
              index (array q)) as [Hlen Hk]; [lia..|done|].
  rewrite Z2Nat.id in Hk by lia.
  replace (index + (size q - 1 - index)) with (size q - 1) in Hk by lia.
  eexists; split; [reflexivity|].
  split; [unfold wf; simpl; lia|].
  split; [done|]. split; [done|]. split; [exact Hk|].
  apply list_eq. intros i. rewrite logical_lookup; simpl.
  destruct (decide (i < Z.to_nat index)%nat) as [Hlt|Hge].
  - rewrite list_lookup_delete_lt by done. rewrite logical_lookup.
    rewrite !decide_True by lia. rewrite Hk by lia.
    by rewrite decide_False by lia.
  - rewrite list_lookup_delete_ge by lia. rewrite logical_lookup.
    destruct (decide (Z.of_nat i < size q - 1)).
    + rewrite decide_True by lia. rewrite Hk by lia.
      rewrite decide_True by lia. do 3 f_equal. lia.
    + by rewrite decide_False by lia.
Qed.

(** C4. For [0 ≤ offset < size], [remove (offset)] returns with [begin]
    untouched and [size] one less; each slot at circular position
    [begin + k], for [k] from [offset] to the new [size - 1], holds what
    position [begin + k + 1] held, every other slot is as before; the
    logical sequence is the former one without its element at [offset].
    From [[1,2,3,4]], [remove (3)] gives [[1,2,3]] and then [remove (0)]
    gives [[2,3]]. *)
Theorem queue_remove_shifts (q : Queue) (offset : Z) :
  wf N q → 0 ≤ offset < size q →
  ∃ q', queue_remove N q offset = Ret tt q'
        ∧ begin q' = begin q ∧ size q' = size q - 1
        ∧ (∀ k, 0 ≤ k < N →
             array q' !!! Z.to_nat ((begin q + k) mod N) =
               if decide (offset ≤ k < size q')
               then array q !!! Z.to_nat ((begin q + (k + 1)) mod N)
               else array q !!! Z.to_nat ((begin q + k) mod N))
        ∧ logical N q' =
            take (Z.to_nat offset) (logical N q)
              ++ drop (S (Z.to_nat offset)) (logical N q)
        ∧ (logical N q = [1; 2; 3; 4] → offset = 3 →
           logical N q' = [1; 2; 3]
           ∧ ∃ q'', queue_remove N q' 0 = Ret tt q''
                    ∧ logical N q'' = [2; 3]).
Proof.
  intros Hwf Hi.
  destruct (queue_remove_ok q offset Hwf Hi)
    as (q' & E & Hwf' & Hb' & Hs' & Hk & Hl).
  exists q'. split; [done|]. split; [done|]. split; [done|].
  split; [by rewrite Hs'|]. split; [by rewrite Hl, delete_take_drop|].
  intros E4 ->. rewrite E4 in Hl. simpl in Hl. split; [done|].
  assert (size q' = 3) as Hs3.
  { pose proof (logical_length q') as L. rewrite Hl in L. simpl in L.
    destruct Hwf' as (_ & ? & _). lia. }
  destruct (queue_remove_ok q' 0 Hwf')
    as (q'' & E' & _ & _ & _ & _ & Hl''); [lia|].
  exists q''. split; [done|]. by rewrite Hl'', Hl.
Qed.

(** ** The zipper merge *)

Lemma flat_map_pairs_seqZ n : ∀ a,
  flat_map (λ i, [2 * i; 2 * i + 1]) (seqZ a (Z.of_nat n))
  = seqZ (2 * a) (2 * Z.of_nat n).
Proof.
  induction n as [|n IH]; intros a; [done|].
  rewrite (seqZ_cons a) by lia. simpl flat_map.
  replace (Z.pred (Z.of_nat (S n))) with (Z.of_nat n) by lia.
  rewrite IH. rewrite (seqZ_cons (2 * a)) by lia. f_equal.
  rewrite (seqZ_cons (Z.succ (2 * a))) by lia.
  replace (Z.succ (2 * a)) with (2 * a + 1) by lia. f_equal.
  f_equal; lia.
Qed.

Lemma seqZ_app a n1 n2 :
  0 ≤ n1 → 0 ≤ n2 → seqZ a n1 ++ seqZ (a + n1) n2 = seqZ a (n1 + n2).
Proof.
  intros H1 H2. apply list_eq. intros i.
  destruct (decide (Z.of_nat i < n1)).
  - rewrite lookup_app_l by (rewrite length_seqZ; lia).
    by rewrite !lookup_seqZ_lt by lia.
  - rewrite lookup_app_r by (rewrite length_seqZ; lia).
    rewrite length_seqZ.
    destruct (decide (Z.of_nat i < n1 + n2)).
    + rewrite !lookup_seqZ_lt by lia. f_equal. lia.
    + by rewrite !lookup_seqZ_ge by lia.
Qed.

(** First loop of [queue_merge], from offset [a] for [n] iterations. *)
Lemma queue_merge_interleave_loop q1 q2 n : ∀ a b,
  wf N q1 → wf N q2 → 0 ≤ a →
  a + Z.of_nat n ≤ size q1 → a + Z.of_nat n ≤ size q2 →
  ∃ b', for_iter_chk n a (queue_merge_interleave N q1 q2) b = Some b'
        ∧ block_bytes b' = block_bytes b
        ∧ block_stores b' =
            block_stores b
              ++ flat_map (λ i, [2 * i; 2 * i + 1]) (seqZ a (Z.of_nat n))
        ∧ (∀ k, a ≤ k < a + Z.of_nat n →
             block_data b' !! (2 * k) = logical N q1 !! Z.to_nat k
             ∧ block_data b' !! (2 * k + 1) = logical N q2 !! Z.to_nat k)
        ∧ (∀ j, ¬ (2 * a ≤ j < 2 * (a + Z.of_nat n)) →
             block_data b' !! j = block_data b !! j).
Proof.
  induction n as [|n IH]; intros a b Hwf1 Hwf2 Ha H1 H2.
  - exists b. simpl. rewrite app_nil_r. repeat split; try done; lia.
  - pose proof Hwf1 as (_ & ? & _). simpl. unfold queue_merge_interleave at 1.
    destruct (queue_get_value_logical q1 a Hwf1) as [E1 [v1 Hv1]]; [lia|].
    destruct (queue_get_value_logical q2 a Hwf2) as [E2 [v2 Hv2]]; [lia|].
    rewrite Hv1, Hv2; simpl. rewrite !u32_small by lia.
    set (b1 := block_store (block_store b (2 * a) v1) (2 * a + 1) v2).
    destruct (IH (a + 1) b1 Hwf1 Hwf2) as (b' & E & Hby & Hst & Hk & Hj);
      [lia..|].
    exists b'. split; [done|]. split; [done|]. split.
    { rewrite Hst. subst b1; simpl. rewrite (seqZ_cons a) by lia.
      replace (Z.pred (Z.of_nat (S n))) with (Z.of_nat n) by lia.
      simpl. by rewrite <- !app_assoc. }
    split.
    + intros k Hka. destruct (decide (k = a)) as [->|Hne].
      * rewrite !Hj by lia. subst b1; simpl.
        rewrite lookup_insert_ne by lia. rewrite !lookup_insert_eq.
        by rewrite <- E1, <- E2, Hv1, Hv2.
      * apply Hk. lia.
    + intros j Hnj. rewrite Hj by lia. subst b1; simpl.
      by rewrite !lookup_insert_ne by lia.
Qed.

(** Second loop of [queue_merge], from offset [a] for [n] iterations. *)
Lemma queue_merge_tail_loop qmin qmax n : ∀ a b,
  wf N qmax → 0 ≤ size qmin ≤ N → 0 ≤ a → a + Z.of_nat n ≤ size qmax →
  ∃ b', for_iter_chk n a (queue_merge_tail N qmin qmax) b = Some b'
        ∧ block_bytes b' = block_bytes b
        ∧ block_stores b' =
            block_stores b ++ seqZ (size qmin + a) (Z.of_nat n)
        ∧ (∀ i, a ≤ i < a + Z.of_nat n →
             block_data b' !! (size qmin + i) = logical N qmax !! Z.to_nat i)
        ∧ (∀ j, ¬ (size qmin + a ≤ j < size qmin + a + Z.of_nat n) →
             block_data b' !! j = block_data b !! j).
Proof.
  induction n as [|n IH]; intros a b Hwf Hmin Ha Han.
  - exists b. simpl. rewrite app_nil_r. repeat split; try done; lia.
  - pose proof Hwf as (_ & ? & _). simpl. unfold queue_merge_tail at 1.
    destruct (queue_get_value_logical qmax a Hwf) as [E1 [v Hv]]; [lia|].
    rewrite Hv; simpl. rewrite !u32_small by lia.
    set (b1 := block_store b (size qmin + a) v).
    destruct (IH (a + 1) b1 Hwf Hmin) as (b' & E & Hby & Hst & Hk & Hj);
      [lia..|].
    exists b'. split; [done|]. split; [done|]. split.
    { rewrite Hst. subst b1; simpl.
      rewrite (seqZ_cons (size qmin + a)) by lia.
      replace (Z.pred (Z.of_nat (S n))) with (Z.of_nat n) by lia.
      rewrite <- app_assoc. simpl. do 3 f_equal. lia. }
    split.
    + intros i Hia. destruct (decide (i = a)) as [->|Hne].
      * rewrite Hj by lia. subst b1; simpl. rewrite lookup_insert_eq.
        by rewrite <- E1, Hv.
      * apply Hk. lia.
    + intros j Hnj. rewrite Hj by lia. subst b1; simpl.
      by rewrite lookup_insert_ne by lia.
Qed.

(** The scratch buffer after both loops. Writing [m] for the smaller size
    and [lmax] for the logical sequence of the longer queue: word [2k] holds
    offset [k] of the first queue and word [2k + 1] offset [k] of the second
    one for [k < m]; word [m + i] holds offset [i] of the longer queue for
    [m ≤ i]. The stores go to the words 0, 1, ..., total - 1 in this order,
    of a block of [total] bytes. *)
Lemma queue_merge_scratch_ok q1 q2 :
  wf N q1 → wf N q2 → size q1 + size q2 ≤ N →
  let m := size q1 `min` size q2 in
  let lmax := if decide (size q2 ≤ size q1) then logical N q1
              else logical N q2 in
  ∃ b, queue_merge_scratch N q1 q2 = Some b
       ∧ block_bytes b = size q1 + size q2
       ∧ block_stores b = seqZ 0 (size q1 + size q2)
       ∧ (∀ k, 0 ≤ k < m →
            block_data b !! (2 * k) = logical N q1 !! Z.to_nat k
            ∧ block_data b !! (2 * k + 1) = logical N q2 !! Z.to_nat k)
       ∧ (∀ i, m ≤ i < size q1 `max` size q2 →
            block_data b !! (m + i) = lmax !! Z.to_nat i).
Proof.
  intros Hwf1 Hwf2 Hsum m lmax.
  pose proof Hwf1 as (_ & Hs1 & _). pose proof Hwf2 as (_ & Hs2 & _).
  unfold queue_merge_scratch, for_ne_chk.
  set (qmin := if size q1 <? size q2 then q1 else q2).
  set (qmax := if size q2 <=? size q1 then q1 else q2).
  assert (Hmin : size qmin = m).
  { subst qmin m. destruct (Z.ltb_spec (size q1) (size q2)); lia. }
  assert (Hmax : size qmax = size q1 `max` size q2 ∧ wf N qmax
                 ∧ logical N qmax = lmax).
  { subst qmax lmax. destruct (Z.leb_spec (size q2) (size q1)).
    - rewrite decide_True by lia. split; [lia|done].
    - rewrite decide_False by lia. split; [lia|done]. }
  destruct Hmax as (Hmax & Hwfmax & Hlmax).
  rewrite Hmin, Hmax.
  rewrite (u32_small (size q1 + size q2)) by lia.
  rewrite !u32_small by lia.
  destruct (queue_merge_interleave_loop q1 q2 (Z.to_nat (m - 0)) 0
              (malloc (size q1 + size q2)) Hwf1 Hwf2)
    as (b1 & E1 & Hby1 & Hst1 & Hk1 & Hj1); [lia..|].
  rewrite E1; simpl.
  destruct (queue_merge_tail_loop qmin qmax
              (Z.to_nat (size q1 `max` size q2 - m)) m b1 Hwfmax)
    as (b2 & E2 & Hby2 & Hst2 & Hk2 & Hj2); [lia..|].
  rewrite E2. exists b2. split; [done|].
  split; [by rewrite Hby2, Hby1|]. split.
  { rewrite Hst2, Hst1. simpl. rewrite flat_map_pairs_seqZ.
    rewrite !Z2Nat.id by lia. rewrite Hmin.
    replace (2 * 0) with 0 by lia.
    replace (m + m) with (0 + 2 * (m - 0)) by lia.
    rewrite seqZ_app by lia. f_equal. lia. }
  split.
  - intros k Hk. rewrite !Hj2 by lia. apply Hk1. lia.
  - intros i Hi. rewrite <- Hlmax, <- Hmin. apply Hk2. lia.
Qed.

Lemma queue_merge_abort q1 q2 :
  wf N q1 → wf N q2 → N < size q1 + size q2 →
  queue_merge N (q1, q2) = Abort (q1, q2).
Proof.
  intros (_ & Hs1 & _) (_ & Hs2 & _) Hsum. unfold queue_merge.
  rewrite u32_small by lia.
  destruct (Z.leb_spec (size q1 + size q2) N); [lia|done].
Qed.





(** Every merge of a non-empty result overruns its scratch block: the block
    is [total] bytes long, the stores go to the words 0 .. total - 1, and
    the last of them ends at byte [4 * total]. *)
Lemma queue_merge_scratch_overrun q1 q2 :
  wf N q1 → wf N q2 → size q1 + size q2 ≤ N → 0 < size q1 + size q2 →
  ∃ b, queue_merge_scratch N q1 q2 = Some b
       ∧ block_bytes b = size q1 + size q2
       ∧ block_stores b = seqZ 0 (size q1 + size q2)
       ∧ in_block b (size q1 + size q2 - 1) = false.
Proof.
  intros Hwf1 Hwf2 Hsum Hpos.
  destruct (queue_merge_scratch_ok q1 q2 Hwf1 Hwf2 Hsum)
    as (b & E & Hby & Hst & _).
  exists b. do 3 (split; [done|]).
  unfold in_block, sizeof_uint32_t. rewrite Hby.
  apply andb_false_iff. right. apply Z.leb_gt. lia.
Qed.

(** C3 (as the code has it). When [self.size + other.size > N],
    [queue_merge] does not return: its assertion fails, before either queue
    has been written. The function has no failure result to report. *)
Theorem queue_merge_over_capacity_aborts (self other : Queue) :
  wf N self → wf N other → N < size self + size other →
  queue_merge N (self, other) = Abort (self, other)
  ∧ ¬ returns (queue_merge N (self, other)).
Proof.
  intros Hwf1 Hwf2 Hsum.
  rewrite (queue_merge_abort self other Hwf1 Hwf2 Hsum). split; [done|].
  simpl. tauto.
Qed.

(** ** Copying out *)

Lemma memcpy_lookup (dst src : list Z) d s n (i : nat) :
  0 ≤ d → 0 ≤ s → 0 ≤ n →
  (Z.to_nat d + Z.to_nat n ≤ length dst)%nat →
  (Z.to_nat s + Z.to_nat n ≤ length src)%nat →
  memcpy dst d src s (n * sizeof_uint32_t) !! i =
    if decide (d ≤ Z.of_nat i < d + n)
    then src !! (Z.to_nat s + (i - Z.to_nat d))%nat
    else dst !! i.
Proof.
  intros Hd Hs Hn Hdst Hsrc. unfold memcpy, sizeof_uint32_t.
  rewrite Z.div_mul by lia.
  destruct (decide (Z.of_nat i < d)) as [Hlt|Hge].
  - rewrite lookup_app_l by (rewrite length_take; lia).
    rewrite lookup_take_lt by lia. by rewrite decide_False by lia.
  - rewrite lookup_app_r by (rewrite length_take; lia).
    rewrite length_take_le by lia.
    destruct (decide (Z.of_nat i < d + n)) as [Hin|Hout].
    + rewrite lookup_app_l by (rewrite length_take, length_drop; lia).
      rewrite lookup_take_lt by lia. rewrite lookup_drop.
      by rewrite decide_True by lia.
    + rewrite lookup_app_r by (rewrite length_take, length_drop; lia).
      rewrite length_take_le by (rewrite length_drop; lia).
      rewrite lookup_drop. rewrite decide_False by lia. f_equal. lia.
Qed.

Lemma length_memcpy (dst src : list Z) d s n :
  0 ≤ d → 0 ≤ s → 0 ≤ n →
  (Z.to_nat d + Z.to_nat n ≤ length dst)%nat →
  (Z.to_nat s + Z.to_nat n ≤ length src)%nat →
  length (memcpy dst d src s (n * sizeof_uint32_t)) = length dst.
Proof.
  intros Hd Hs Hn Hdst Hsrc. unfold memcpy, sizeof_uint32_t.
  rewrite Z.div_mul by lia.
  rewrite !length_app, !length_take, !length_drop. lia.
Qed.

Lemma queue_copy_to_ok q (destination : list Z) :
  wf N q → (Z.to_nat (size q) ≤ length destination)%nat →
  queue_copy_to N q destination
  = logical N q ++ drop (Z.to_nat (size q)) destination.
Proof.
  intros (Hb & Hs & Hl) Hdst. apply list_eq. intros i.
  assert (Hrhs : (logical N q ++ drop (Z.to_nat (size q)) destination) !! i =
    if decide (Z.of_nat i < size q)
    then array q !! Z.to_nat ((begin q + Z.of_nat i) mod N)
    else destination !! i).
  { case_decide.
    - rewrite lookup_app_l by (rewrite logical_length; lia).
      rewrite logical_lookup, decide_True by lia.
      symmetry. apply list_lookup_lookup_total_lt. by apply slot_nat_lt.
    - rewrite lookup_app_r by (rewrite logical_length; lia).
      rewrite logical_length, lookup_drop. f_equal. lia. }
  rewrite Hrhs. clear Hrhs. unfold queue_copy_to.
  rewrite (u32_small (begin q + size q)) by lia.
  destruct (Z.leb_spec (begin q + size q) N) as [Hfit|Hwrap].
  - rewrite memcpy_lookup by lia.
    destruct (decide (Z.of_nat i < size q)).
    + rewrite decide_True by lia. rewrite Z.mod_small by lia. f_equal. lia.
    + by rewrite decide_False by lia.
  - rewrite (u32_small (size q + begin q)) by lia.
    rewrite !u32_small by lia.
    rewrite memcpy_lookup; [|lia..| |lia].
    2:{ rewrite length_memcpy by lia. lia. }
    destruct (decide (Z.of_nat i < size q)) as [Hin|Hout].
    + destruct (decide (Z.of_nat i < N - begin q)) as [Hfirst|Hsecond].
      * rewrite decide_False by lia. rewrite memcpy_lookup by lia.
        rewrite decide_True by lia. rewrite Z.mod_small by lia. f_equal. lia.
      * rewrite decide_True by lia. rewrite mod_wrap_ge by lia. f_equal. lia.
    + rewrite decide_False by lia. rewrite memcpy_lookup by lia.
      by rewrite decide_False by lia.
Qed.

(** The circular queue and the reference deque stay in step. *)
Lemma queue_apply_ref op q :
  wf N q →
  ∃ q', queue_apply N op q = Some q' ∧ wf N q'
        ∧ logical N q' = ref_apply N op (logical N q).
Proof.
  intros Hwf. pose proof Hwf as (_ & Hs & _).
  pose proof (logical_length q) as Hlen.
  destruct op as [v| |]; simpl.
  - case_decide as Hfull.
    + rewrite queue_push_back_full by lia. eauto.
    + destruct (queue_push_back_ok q v Hwf) as (q' & E & Hwf' & _ & Hl'); [lia|].
      rewrite E. eauto.
  - destruct (decide (size q = 0)) as [H0|Hne].
    + rewrite queue_pop_back_empty by done.
      exists q. split; [done|]. split; [done|].
      rewrite (nil_length_inv (logical N q)) by lia. done.
    + destruct (queue_pop_back_ok q Hwf) as (x & q' & E & Hwf' & _ & Hl'); [lia|].
      rewrite E, Hl'. eauto.
  - destruct (decide (size q = 0)) as [H0|Hne].
    + rewrite queue_pop_front_empty by done.
      exists q. split; [done|]. split; [done|].
      rewrite (nil_length_inv (logical N q)) by lia. done.
    + destruct (queue_pop_front_ok q Hwf)
        as (y & q' & E & Hwf' & _ & _ & Hl'); [lia|].
      rewrite E, Hl'. exists q'. split; [done|]. split; [done|].
      rewrite length_app; simpl.
      rewrite take_app_le by lia. rewrite take_ge by lia. done.
Qed.

Lemma queue_run_ref ops : ∀ q,
  wf N q →
  ∃ q', queue_run N ops q = Some q' ∧ wf N q'
        ∧ logical N q' = foldl (λ l op, ref_apply N op l) (logical N q) ops.
Proof.
  induction ops as [|op ops IH]; intros q Hwf; simpl.
  - eauto.
  - destruct (queue_apply_ref op q Hwf) as (q1 & E & Hwf1 & Hl1).
    rewrite E; simpl. rewrite <- Hl1. by apply IH.
Qed.

(** C6. [queue_copy_to] writes the logical elements at offsets
    [0 .. size - 1], in this order, at the start of the destination and
    leaves the rest of it alone, whether or not the logical range wraps past
    the end of the storage (its only result is the destination: it has no
    access to modify the queue); and after any history of [push_back],
    [pop_back] and [pop_front] on an initialized queue, what it writes is
    the sequence that the reference deque holds after the same history. *)
Theorem queue_copy_to_logical :
  (∀ (q : Queue) (destination : list Z),
     wf N q → (Z.to_nat (size q) ≤ length destination)%nat →
     queue_copy_to N q destination
     = logical N q ++ drop (Z.to_nat (size q)) destination)
  ∧ (∀ (ops : list deque_op) (destination : list Z),
       ∃ q, queue_run N ops (queue_init N) = Some q
            ∧ ((Z.to_nat (size q) ≤ length destination)%nat →
               queue_copy_to N q destination
               = ref_run N ops ++ drop (length (ref_run N ops)) destination)).
Proof.
  split.
  - intros q destination Hwf Hdst. by apply queue_copy_to_ok.
  - intros ops destination.
    destruct (queue_run_ref ops (queue_init N) wf_queue_init)
      as (q & E & Hwf & Hl).
    exists q. split; [done|]. intros Hdst.
    rewrite queue_copy_to_ok by done.
    rewrite logical_queue_init in Hl. unfold ref_run.
    rewrite <- Hl, logical_length. done.
Qed.

(** ** Reachable states *)


Lemma queue_find_from_returns n : ∀ i q v,
  wf N q → 0 ≤ i → i + Z.of_nat n ≤ size q →
  returns (queue_find_from N n i q v).
Proof.
  induction n as [|n IH]; intros i q v Hwf Hi Hn; simpl; [done|].
  pose proof Hwf as (_ & ? & _).
  destruct (queue_get_value_logical q i Hwf) as [_ [x ->]]; [lia|].
  destruct (x =? v); [done|]. rewrite u32_small by lia. apply IH; [done|lia..].
Qed.

Lemma queue_find_returns q v : wf N q → returns (queue_find N q v).
Proof.
  intros Hwf. pose proof Hwf as (_ & ? & _). unfold queue_find.
  apply queue_find_from_returns; [done|lia|].
  rewrite Z.sub_0_r, u32_small by lia. lia.
Qed.






(** ** The commands *)

Lemma push_all_fits vs : ∀ q0 q,
  wf N q0 → push_all N vs q0 = Some q →
  size q0 + Z.of_nat (length vs) ≤ N.
Proof.
  induction vs as [|v vs IH]; intros q0 q Hwf E; simpl in *.
  - destruct Hwf as (_ & ? & _). lia.
  - pose proof Hwf as (_ & ? & _).
    destruct (decide (size q0 = N)) as [Hfull|Hne].
    + rewrite queue_push_back_full in E by done. done.
    + destruct (queue_push_back_ok q0 v Hwf) as (q1 & E1 & Hwf1 & Hs1 & _); [lia|].
      rewrite E1 in E. simpl in E. specialize (IH q1 q Hwf1 E). lia.
Qed.

Lemma push_all_logical vs q0 q :
  wf N q0 → size q0 = 0 → push_all N vs q0 = Some q →
  wf N q ∧ logical N q = rev vs.
Proof.
  intros Hwf H0 E. pose proof (push_all_fits vs q0 q Hwf E) as Hlen.
  destruct (push_all_ok vs q0 Hwf) as (q' & E' & Hwf' & Hl'); [lia|].
  rewrite E in E'. injection E' as <-. split; [done|].
  rewrite Hl'. rewrite (nil_length_inv (logical N q0)).
  - by rewrite app_nil_r.
  - rewrite logical_length. lia.
Qed.

(** C9. On a non-empty queue, the dequeue command built with
    [QUEUE_MODE_FIFO] calls [queue_pop_back]: it prints and removes the
    element at offset 0, the one added last. Built with [QUEUE_MODE_LIFO],
    which is the default, it calls [queue_pop_front]: it prints and removes
    the element at offset [size - 1], the one added first. Elements are
    added with [queue_push_back]. Each mode thus removes in the order
    that the name of the other one announces. *)
Theorem cli_dequeue_mode_inverted (argc arg1 : Z) (queues : Queue * Queue) :
  wf N queues.1 → wf N queues.2 → 2 ≤ argc → arg1 = 1 ∨ arg1 = 2 →
  0 < size (queues_get queues (arg1 - 1)) →
  let queue := queues_get queues (arg1 - 1) in
  QUEUE_MODE = QUEUE_MODE_LIFO
  ∧ (∃ x queue',
       queue_pop_back N queue = (0, Some x, queue')
       ∧ cli_dequeue N QUEUE_MODE_FIFO argc arg1 queues
         = Ret (0, [x]) (queues_set queues (arg1 - 1) queue')
       ∧ logical N queue = x :: logical N queue'
       ∧ ∀ q0 vs, wf N q0 → size q0 = 0 → push_all N vs q0 = Some queue →
                  last vs = Some x)
  ∧ (∃ y queue',
       queue_pop_front N queue = Ret (0, Some y) queue'
       ∧ cli_dequeue N QUEUE_MODE_LIFO argc arg1 queues
         = Ret (0, [y]) (queues_set queues (arg1 - 1) queue')
       ∧ logical N queue = logical N queue' ++ [y]
       ∧ ∀ q0 vs, wf N q0 → size q0 = 0 → push_all N vs q0 = Some queue →
                  head vs = Some y)
  ∧ (∀ argc' arg2, 3 ≤ argc' →
       cli_add_to_queue N argc' arg1 arg2 queues
       = Ret (queue_push_back N queue (u32 arg2)).1
             (queues_set queues (arg1 - 1)
                (queue_push_back N queue (u32 arg2)).2)).
Proof.
  intros Hwf1 Hwf2 Hargc Harg Hpos queue.
  assert (Hq : wf N queue).
  { subst queue. unfold queues_get. by destruct (_ =? 0). }
  assert (Hnum : cli_get_queue_number arg1 = arg1 - 1
                 ∧ (arg1 - 1 =? -1) = false).
  { unfold cli_get_queue_number. destruct Harg as [-> | ->]; done. }
  destruct Hnum as [Hnum Hne].
  split; [done|]. split; [|split].
  - destruct (queue_pop_back_ok queue Hq Hpos) as (x & q' & E & _ & _ & Hl).
    exists x, q'. split; [done|]. split.
    { unfold cli_dequeue. destruct (Z.ltb_spec argc 2); [lia|].
      rewrite Hnum, Hne. fold queue. by rewrite E. }
    split; [done|]. intros q0 vs Hwf0 H0 Hpush.
    destruct (push_all_logical vs q0 queue Hwf0 H0 Hpush) as [_ Hrev].
    rewrite Hl in Hrev. rewrite <- (rev_involutive vs), <- Hrev.
    simpl. by rewrite last_snoc.
  - destruct (queue_pop_front_ok queue Hq Hpos)
      as (y & q' & E & _ & _ & _ & Hl).
    exists y, q'. split; [done|]. split.
    { unfold cli_dequeue. destruct (Z.ltb_spec argc 2); [lia|].
      rewrite Hnum, Hne. fold queue. by rewrite E. }
    split; [done|]. intros q0 vs Hwf0 H0 Hpush.
    destruct (push_all_logical vs q0 queue Hwf0 H0 Hpush) as [_ Hrev].
    rewrite Hl in Hrev. rewrite <- (rev_involutive vs), <- Hrev.
    by rewrite rev_app_distr.
  - intros argc' arg2 Hargc'. unfold cli_add_to_queue.
    destruct (Z.ltb_spec argc' 3); [lia|].
    rewrite Hnum, Hne. fold queue.
    by destruct (queue_push_back N queue (u32 arg2)).
Qed.



(** ** More on the engine *)

Lemma queue_find_from_spec n : ∀ i q v,
  wf N q → 0 ≤ i → i + Z.of_nat n = size q →
  (∀ j, (j < Z.to_nat i)%nat → logical N q !! j ≠ Some v) →
  (∃ k, queue_find_from N n i q v = Ret (0, Some k) q
        ∧ 0 ≤ k < size q ∧ logical N q !! Z.to_nat k = Some v
        ∧ ∀ j, (j < Z.to_nat k)%nat → logical N q !! j ≠ Some v)
  ∨ (queue_find_from N n i q v = Ret (-1, None) q
     ∧ ∀ j, logical N q !! j ≠ Some v).
Proof.
  induction n as [|n IH]; intros i q v Hwf Hi Hn Hbefore; simpl.
  - right. split; [done|]. intros j.
    destruct (decide (j < Z.to_nat i)%nat); [by apply Hbefore|].
    rewrite lookup_ge_None_2; [done|]. rewrite logical_length. lia.
  - pose proof Hwf as (_ & ? & _).
    destruct (queue_get_value_logical q i Hwf) as [E [x Hx]]; [lia|].
    rewrite Hx. rewrite Hx in E. symmetry in E.
    destruct (Z.eqb_spec x v) as [->|Hne].
    + left. exists i. split; [done|]. split; [lia|]. done.
    + rewrite u32_small by lia. apply IH; [done|lia|lia|].
      intros j Hj. destruct (decide (j = Z.to_nat i)) as [->|Hji].
      * rewrite E. congruence.
      * apply Hbefore. lia.
Qed.

Lemma queue_find_ok (q : Queue) (v : Z) :
  wf N q →
  (∃ k, queue_find N q v = Ret (0, Some k) q
        ∧ 0 ≤ k < size q ∧ logical N q !! Z.to_nat k = Some v
        ∧ ∀ j, (j < Z.to_nat k)%nat → logical N q !! j ≠ Some v)
  ∨ (queue_find N q v = Ret (-1, None) q ∧ v ∉ logical N q).
Proof.
  intros Hwf. pose proof Hwf as (_ & ? & _). unfold queue_find.
  rewrite Z.sub_0_r, u32_small by lia.
  destruct (queue_find_from_spec (Z.to_nat (size q)) 0 q v Hwf)
    as [Hfound | [E Hnone]]; [lia|lia|intros j; lia|by left|].
  right. split; [done|]. intros Hin.
  apply list_elem_of_lookup in Hin as [j Hj]. by apply (Hnone j).
Qed.

(** X1. [queue_find] returns the first offset that holds the value, or fails
    with [-1] when no offset does; it leaves the queue alone. *)
Theorem queue_find_first (q : Queue) (v : Z) :
  wf N q →
  (∃ k, queue_find N q v = Ret (0, Some k) q
        ∧ 0 ≤ k < size q ∧ logical N q !! Z.to_nat k = Some v
        ∧ ∀ j, (j < Z.to_nat k)%nat → logical N q !! j ≠ Some v)
  ∨ (queue_find N q v = Ret (-1, None) q ∧ v ∉ logical N q).
Proof. exact (queue_find_ok q v). Qed.

(** X2. A [push_back] followed by a [pop_back] gives the value back and
    restores [begin], [size] and the logical sequence. *)
Theorem push_back_pop_back_restores (q : Queue) (v : Z) :
  wf N q → size q < N →
  ∃ q1 q2, queue_push_back N q v = (0, q1)
           ∧ queue_pop_back N q1 = (0, Some v, q2)
           ∧ begin q2 = begin q ∧ size q2 = size q
           ∧ logical N q2 = logical N q.
Proof.
  intros Hwf Hlt. pose proof Hwf as (Hb & Hs & _).
  destruct (queue_push_back_ok q v Hwf Hlt) as (q1 & E1 & Hwf1 & Hs1 & Hl1).
  destruct (queue_pop_back_ok q1 Hwf1) as (x & q2 & E2 & _ & Hs2 & Hl2); [lia|].
  rewrite Hl1 in Hl2. injection Hl2 as <- Hl2.
  exists q1, q2. split; [done|]. split; [done|].
  split; [|split; [lia|done]].
  unfold queue_push_back in E1.
  destruct (Z.eqb_spec (size q) N); [lia|]. injection E1 as <-.
  unfold queue_pop_back in E2. simpl in E2.
  destruct (_ =? 0) in E2; [done|]. injection E2 as _ <-. simpl.
  destruct (Z.eqb_spec (begin q) 0) as [E0|E0].
  - rewrite Z.eqb_refl. lia.
  - rewrite (u32_small (begin q - 1)) by lia.
    destruct (Z.eqb_spec (begin q - 1) (N - 1)); [lia|].
    rewrite u32_small by lia. lia.
Qed.

(** X3. [push_back] fails exactly on a full queue, [pop_back] and [pop_front]
    exactly on an empty one, and a failing call hands the queue back as it
    was, without a value. *)
Theorem failing_call_unchanged (q : Queue) (v : Z) :
  wf N q →
  ((queue_push_back N q v).1 = -1 ↔ size q = N)
  ∧ ((queue_push_back N q v).1 = -1 → (queue_push_back N q v).2 = q)
  ∧ ((queue_pop_back N q).1.1 = -1 ↔ size q = 0)
  ∧ ((queue_pop_back N q).1.1 = -1 → queue_pop_back N q = (-1, None, q))
  ∧ (size q = 0 ↔ queue_pop_front N q = Ret (-1, None) q)
  ∧ (0 < size q → ∃ y q', queue_pop_front N q = Ret (0, Some y) q').
Proof.
  intros Hwf. pose proof Hwf as (_ & Hs & _).
  assert (Hpush : (queue_push_back N q v).1 = -1 ↔ size q = N).
  { split.
    - intros E. destruct (decide (size q = N)) as [|Hne]; [done|].
      destruct (queue_push_back_ok q v Hwf) as (q' & E' & _); [lia|].
      by rewrite E' in E.
    - intros E. by rewrite queue_push_back_full. }
  assert (Hpop : (queue_pop_back N q).1.1 = -1 ↔ size q = 0).
  { split.
    - intros E. destruct (decide (size q = 0)) as [|Hne]; [done|].
      destruct (queue_pop_back_ok q Hwf) as (x & q' & E' & _); [lia|].
      by rewrite E' in E.
    - intros E. by rewrite queue_pop_back_empty. }
  split; [done|]. split.
  { intros E. apply Hpush in E. by rewrite queue_push_back_full. }
  split; [done|]. split.
  { intros E. apply Hpop in E. by rewrite queue_pop_back_empty. }
  split.
  - split; [apply queue_pop_front_empty|]. intros E.
    destruct (decide (size q = 0)) as [|Hne]; [done|].
    destruct (queue_pop_front_ok q Hwf) as (y & q' & E' & _); [lia|].
    by rewrite E' in E.
  - intros Hpos.
    destruct (queue_pop_front_ok q Hwf Hpos) as (y & q' & E' & _). eauto.
Qed.






(** ** More commands *)

Lemma cli_get_queue_number_ok arg1 :
  arg1 = 1 ∨ arg1 = 2 →
  cli_get_queue_number arg1 = arg1 - 1 ∧ (arg1 - 1 =? -1) = false.
Proof. unfold cli_get_queue_number. intros [-> | ->]; done. Qed.

Lemma cli_get_queue_number_bad arg1 :
  arg1 ≠ 1 → arg1 ≠ 2 → cli_get_queue_number arg1 = -1.
Proof.
  intros H1 H2. unfold cli_get_queue_number.
  destruct (Z.eqb_spec arg1 1); [done|]. by destruct (Z.eqb_spec arg1 2).
Qed.

Lemma queues_get_wf (queues : Queue * Queue) n :
  wf N queues.1 → wf N queues.2 → wf N (queues_get queues n).
Proof. intros H1 H2. unfold queues_get. by destruct (n =? 0). Qed.

Lemma queues_set_get (queues : Queue * Queue) n :
  queues_set queues n (queues_get queues n) = queues.
Proof.
  unfold queues_set, queues_get. destruct queues. by destruct (n =? 0).
Qed.

(** A loop over the offsets [i .. i + n - 1] that appends [f] of each
    element to its output. *)
Lemma for_iter_chk_values q (f : Z → list Z) (body : Z → list Z → option (list Z)) :
  (∀ i out, body i out = v ← queue_get_value N q i; Some (out ++ f v)) →
  wf N q →
  ∀ n i out, 0 ≤ i → i + Z.of_nat n ≤ size q →
    for_iter_chk n i body out
    = Some (out ++ flat_map f (take n (drop (Z.to_nat i) (logical N q)))).
Proof.
  intros Hbody Hwf. pose proof Hwf as (_ & ? & _).
  induction n as [|n IH]; intros i out Hi Hn; simpl.
  - by rewrite app_nil_r.
  - rewrite Hbody.
    destruct (queue_get_value_logical q i Hwf) as [E [x Hx]]; [lia|].
    rewrite Hx. rewrite Hx in E. symmetry in E. simpl.
    rewrite u32_small by lia. rewrite IH by lia.
    rewrite (drop_S _ x _ E). simpl. rewrite <- app_assoc.
    by replace (Z.to_nat (i + 1)) with (S (Z.to_nat i)) by lia.
Qed.

Lemma for_ne_chk_values q (f : Z → list Z) (body : Z → list Z → option (list Z)) out :
  (∀ i out, body i out = v ← queue_get_value N q i; Some (out ++ f v)) →
  wf N q →
  for_ne_chk 0 (size q) body out = Some (out ++ flat_map f (logical N q)).
Proof.
  intros Hbody Hwf. pose proof Hwf as (_ & ? & _). unfold for_ne_chk.
  rewrite Z.sub_0_r, u32_small by lia.
  rewrite (for_iter_chk_values q f body Hbody Hwf) by lia.
  change (Z.to_nat 0) with 0%nat. rewrite drop_0.
  by rewrite take_ge by (rewrite logical_length; lia).
Qed.

Lemma flat_map_singleton (l : list Z) : flat_map (λ v, [v]) l = l.
Proof. induction l as [|x l IH]; simpl; by rewrite ?IH. Qed.

Lemma cli_remove_from_queue_ok (argc arg1 arg2 : Z)
    (queues : Queue * Queue) :
  wf N queues.1 → wf N queues.2 → 3 ≤ argc → arg1 = 1 ∨ arg1 = 2 →
  let queue := queues_get queues (arg1 - 1) in
  (u32 arg2 ∉ logical N queue →
     cli_remove_from_queue N argc arg1 arg2 queues = Some (Ret (-1) queues))
  ∧ (∀ k : nat,
       logical N queue !! k = Some (u32 arg2) →
       (∀ j, (j < k)%nat → logical N queue !! j ≠ Some (u32 arg2)) →
       ∃ queue',
         cli_remove_from_queue N argc arg1 arg2 queues
         = Some (Ret 0 (queues_set queues (arg1 - 1) queue'))
         ∧ wf N queue' ∧ begin queue' = begin queue
         ∧ logical N queue' = delete k (logical N queue)).
Proof.
  intros Hwf1 Hwf2 Hargc Harg queue.
  pose proof (queues_get_wf queues (arg1 - 1) Hwf1 Hwf2) as Hq. fold queue in Hq.
  destruct (cli_get_queue_number_ok arg1 Harg) as [Hnum Hne].
  assert (Hhead : ∀ r,
    (match queue_find N queue (u32 arg2) with
     | Abort queue0 => Some (Abort (queues_set queues (arg1 - 1) queue0))
     | Ret (rc, index) queue0 =>
         if rc =? -1 then Some (Ret (-1) (queues_set queues (arg1 - 1) queue0))
         else
           index ← index;
           match queue_remove N queue0 index with
           | Abort queue1 => Some (Abort (queues_set queues (arg1 - 1) queue1))
           | Ret _ queue1 => Some (Ret 0 (queues_set queues (arg1 - 1) queue1))
           end
     end) = r →
    cli_remove_from_queue N argc arg1 arg2 queues = r).
  { intros r <-. unfold cli_remove_from_queue.
    destruct (Z.ltb_spec argc 3); [lia|]. by rewrite Hnum, Hne. }
  destruct (queue_find_ok queue (u32 arg2) Hq)
    as [(k & E & Hk & Hlk & Hfirst) | [E Hnot]].
  - split; [intros Hnot; exfalso; apply Hnot; by eapply list_elem_of_lookup_2|].
    intros k' Hlk' Hfirst'.
    assert (k' = Z.to_nat k) as ->.
    { destruct (Nat.lt_trichotomy k' (Z.to_nat k)) as [Hlt|[->|Hgt]]; [|done|].
      - by apply Hfirst in Hlt.
      - by apply Hfirst' in Hgt. }
    destruct (queue_remove_ok queue k Hq Hk)
      as (q' & E' & Hwf' & Hb' & _ & _ & Hl').
    exists q'. split; [|done]. apply Hhead. rewrite E. simpl. by rewrite E'.
  - split.
    + intros _. apply Hhead. rewrite E. simpl. unfold queue.
      by rewrite queues_set_get.
    + intros k Hlk _. exfalso. apply Hnot. by eapply list_elem_of_lookup_2.
Qed.

(** X5. The remove command deletes the first occurrence of the value from the
    selected queue and returns 0; when the value does not occur it returns
    [-1] and leaves both queues alone. It never reads [index] unset and
    never fails an assertion. *)
Theorem cli_remove_from_queue_first (argc arg1 arg2 : Z)
    (queues : Queue * Queue) :
  wf N queues.1 → wf N queues.2 → 3 ≤ argc → arg1 = 1 ∨ arg1 = 2 →
  let queue := queues_get queues (arg1 - 1) in
  (u32 arg2 ∉ logical N queue →
     cli_remove_from_queue N argc arg1 arg2 queues = Some (Ret (-1) queues))
  ∧ (∀ k : nat,
       logical N queue !! k = Some (u32 arg2) →
       (∀ j, (j < k)%nat → logical N queue !! j ≠ Some (u32 arg2)) →
       ∃ queue',
         cli_remove_from_queue N argc arg1 arg2 queues
         = Some (Ret 0 (queues_set queues (arg1 - 1) queue'))
         ∧ wf N queue' ∧ begin queue' = begin queue
         ∧ logical N queue' = delete k (logical N queue)).
Proof. exact (cli_remove_from_queue_ok argc arg1 arg2 queues). Qed.

Lemma cli_print_ok (argc arg1 : Z) (queues : Queue * Queue) :
  wf N queues.1 → wf N queues.2 → 2 ≤ argc →
  let queue := queues_get queues (arg1 - 1) in
  (arg1 = 1 ∨ arg1 = 2 →
     cli_print_contents N argc arg1 queues = Ret (0, logical N queue) queues
     ∧ cli_print_size_and_contents N argc arg1 queues
       = Ret (0, size queue :: logical N queue) queues)
  ∧ (arg1 ≠ 1 → arg1 ≠ 2 →
       cli_print_contents N argc arg1 queues = Ret (-1, []) queues
       ∧ cli_print_size_and_contents N argc arg1 queues = Ret (-1, []) queues).
Proof.
  intros Hwf1 Hwf2 Hargc queue.
  pose proof (queues_get_wf queues (arg1 - 1) Hwf1 Hwf2) as Hq. fold queue in Hq.
  unfold cli_print_contents, cli_print_size_and_contents.
  destruct (Z.ltb_spec argc 2); [lia|]. split.
  - intros Harg. destruct (cli_get_queue_number_ok arg1 Harg) as [-> ->].
    fold queue.
    rewrite !(for_ne_chk_values queue (λ v, [v]) (cli_print_value N queue))
      by done.
    by rewrite flat_map_singleton.
  - intros H1 H2. by rewrite cli_get_queue_number_bad.
Qed.


Lemma land_pow2_eqb x b :
  0 ≤ b → (Z.land x (2 ^ b) =? 0) = negb (Z.testbit x b).
Proof.
  intros Hb. destruct (Z.testbit x b) eqn:Hx; simpl.
  - apply Z.eqb_neq. intros E.
    pose proof (Z.land_spec x (2 ^ b) b) as Hl.
    rewrite E, Z.bits_0, Hx, Z.pow2_bits_true in Hl by done. done.
  - apply Z.eqb_eq. apply Z.bits_inj'. intros m Hm.
    rewrite Z.land_spec, Z.bits_0, Z.pow2_bits_eqb by done.
    destruct (Z.eqb_spec b m) as [->|]; [by rewrite Hx|apply andb_false_r].
Qed.

Lemma flat_map_filter_bit (l : list Z) b :
  flat_map (λ v, if Z.testbit v b then [v] else []) l
  = filter (λ v, Is_true (Z.testbit v b)) l.
Proof.
  induction l as [|x l IH]; [done|]. simpl. rewrite IH.
  destruct (Z.testbit x b) eqn:Hx.
  - rewrite filter_cons_True; [done|]. by rewrite Hx.
  - rewrite filter_cons_False; [done|]. rewrite Hx. simpl. tauto.
Qed.

(** X7. For a bit number below 32 the find-bit command prints, in queue order,
    the elements in which that bit is set, bit 0 being the least
    significant one; it returns 0 and leaves the queues as they are. Above
    32 it returns [-1]. At 32, which the guard lets through, the mask is a
    shift of a 32-bit value by 32 positions. *)
Theorem cli_find_bit_filter (argc arg1 arg2 : Z) (queues : Queue * Queue) :
  wf N queues.1 → wf N queues.2 → 3 ≤ argc → arg1 = 1 ∨ arg1 = 2 →
  let queue := queues_get queues (arg1 - 1) in
  (0 ≤ arg2 < 32 →
     cli_find_bit N argc arg1 arg2 queues
     = Some (Ret (0, filter (λ v, Is_true (Z.testbit v arg2)) (logical N queue))
                 queues))
  ∧ (32 < arg2 →
       cli_find_bit N argc arg1 arg2 queues = Some (Ret (-1, []) queues))
  ∧ (arg2 = 32 → cli_find_bit N argc arg1 arg2 queues = None).
Proof.
  intros Hwf1 Hwf2 Hargc Harg queue.
  pose proof (queues_get_wf queues (arg1 - 1) Hwf1 Hwf2) as Hq. fold queue in Hq.
  destruct (cli_get_queue_number_ok arg1 Harg) as [Hnum Hne].
  unfold cli_find_bit. destruct (Z.ltb_spec argc 3); [lia|].
  rewrite Hnum, Hne. fold queue. split; [|split].
  - intros Hbit. destruct (Z.ltb_spec 32 arg2); [lia|].
    destruct (Z.ltb_spec arg2 32); [|lia]. simpl.
    rewrite Z.shiftl_1_l.
    assert (0 < 2 ^ arg2 < 2 ^ 32) as Hpow.
    { split; [apply Z.pow_pos_nonneg; lia|apply Z.pow_lt_mono_r; lia]. }
    rewrite u32_small by lia.
    rewrite (for_ne_chk_values queue
               (λ v, if Z.testbit v arg2 then [v] else [])); [|..|done].
    + by rewrite flat_map_filter_bit.
    + intros i out. unfold cli_find_bit_body.
      destruct (queue_get_value N queue i) as [item|]; [|done]. simpl.
      rewrite land_pow2_eqb by lia.
      destruct (Z.testbit item arg2); simpl; [done|by rewrite app_nil_r].
  - intros Hbit. by destruct (Z.ltb_spec 32 arg2); [|lia].
  - intros ->. done.
Qed.

(** ** The queue files *)

Lemma load_queue_from_ok vs : ∀ counter arr,
  0 ≤ counter → counter + Z.of_nat (length vs) ≤ N →
  length arr = Z.to_nat N →
  load_queue_from N vs counter arr
  = Some (counter + Z.of_nat (length vs),
          take (Z.to_nat counter) arr ++ vs
            ++ drop (Z.to_nat counter + length vs) arr).
Proof.
  induction vs as [|v vs IH]; intros counter arr Hc Hn Hlen; simpl.
  - rewrite Z.add_0_r, Nat.add_0_r. by rewrite take_drop.
  - simpl length in Hn.
    destruct (Z.leb_spec 0 counter); [|lia].
    destruct (Z.ltb_spec counter N); [|lia]. simpl.
    rewrite u32_small by lia.
    rewrite IH by (rewrite ?length_insert; lia). f_equal. f_equal; [lia|].
    replace (Z.to_nat (counter + 1)) with (S (Z.to_nat counter)) by lia.
    rewrite (take_S_r _ _ v) by (apply list_lookup_insert_eq; lia).
    rewrite take_insert_ge by lia. rewrite drop_insert_lt by lia.
    rewrite <- app_assoc. simpl.
    by replace (Z.to_nat counter + S (length vs))%nat
      with (S (Z.to_nat counter + length vs)) by lia.
Qed.

Lemma load_queue_from_overflow vs : ∀ counter arr,
  0 ≤ counter ≤ N → N < counter + Z.of_nat (length vs) →
  load_queue_from N vs counter arr = None.
Proof.
  induction vs as [|v vs IH]; intros counter arr Hc Hn; simpl in *; [lia|].
  destruct (Z.leb_spec 0 counter); [|lia].
  destruct (Z.ltb_spec counter N); [|done]. simpl.
  rewrite u32_small by lia. apply IH; lia.
Qed.

Lemma load_queue_ok (queue : Queue) (file : File) :
  length (array queue) = Z.to_nat N →
  (file_data file = None → load_queue N queue file = Some queue)
  ∧ (∀ vs, file_data file = Some vs →
       (Z.of_nat (length vs) ≤ N →
          ∃ q', load_queue N queue file = Some q' ∧ wf N q'
                ∧ begin q' = 0 ∧ logical N q' = vs
                ∧ drop (length vs) (array q') = drop (length vs) (array queue))
       ∧ (N < Z.of_nat (length vs) → load_queue N queue file = None)).
Proof.
  intros Hlen. unfold load_queue. split; [by intros ->|].
  intros vs ->. split.
  - intros Hvs. rewrite load_queue_from_ok by (done || lia). simpl.
    eexists. split; [reflexivity|]. simpl.
    assert (Hl : length (vs ++ drop (length vs) (array queue)) = Z.to_nat N).
    { rewrite length_app, length_drop. lia. }
    split; [unfold wf; simpl; lia|]. split; [done|]. split.
    + apply list_eq. intros i. rewrite logical_lookup; simpl.
      rewrite !Z.add_0_l.
      destruct (decide (Z.of_nat i < Z.of_nat (length vs))) as [Hi|Hi].
      * rewrite Z.mod_small, Nat2Z.id by lia.
        rewrite lookup_total_app_l by lia.
        symmetry. apply list_lookup_lookup_total_lt. lia.
      * symmetry. apply lookup_ge_None_2. lia.
    + by rewrite drop_app_length.
  - intros Hvs. by rewrite load_queue_from_overflow by lia.
Qed.

(** X8. [load_queue] on the structure [queue], whose storage has [N] slots. A
    file that cannot be opened leaves the structure as it is. A file of at
    most [N] values gives a well-formed queue with [begin = 0] whose logical
    sequence is the file, the slots behind it keeping what they held. A
    longer file makes the loop store behind the last slot: the number of
    values is not checked. *)
Theorem load_queue_spec (queue : Queue) (file : File) :
  length (array queue) = Z.to_nat N →
  (file_data file = None → load_queue N queue file = Some queue)
  ∧ (∀ vs, file_data file = Some vs →
       (Z.of_nat (length vs) ≤ N →
          ∃ q', load_queue N queue file = Some q' ∧ wf N q'
                ∧ begin q' = 0 ∧ logical N q' = vs
                ∧ drop (length vs) (array q') = drop (length vs) (array queue))
       ∧ (N < Z.of_nat (length vs) → load_queue N queue file = None)).
Proof. exact (load_queue_ok queue file). Qed.

Lemma save_queue_from_ok q n : ∀ i room written,
  wf N q → 0 ≤ i → i + Z.of_nat n ≤ size q →
  save_queue_from N n i q room written
  = Ret tt (written ++ take (n `min` room) (drop (Z.to_nat i) (logical N q))).
Proof.
  induction n as [|n IH]; intros i room written Hwf Hi Hn; simpl.
  - by rewrite app_nil_r.
  - pose proof Hwf as (_ & ? & _).
    destruct (queue_get_value_logical q i Hwf) as [E [x Hx]]; [lia|].
    rewrite Hx. rewrite Hx in E. symmetry in E.
    destruct room as [|room]; simpl.
    + by rewrite app_nil_r.
    + rewrite u32_small by lia. rewrite IH by (done || lia).
      rewrite (drop_S _ x _ E). simpl. rewrite <- app_assoc. simpl.
      by replace (Z.to_nat (i + 1)) with (S (Z.to_nat i)) by lia.
Qed.

Lemma save_queue_ok (q : Queue) (file : File) :
  wf N q →
  (file_writable file = true →
     save_queue N q file
     = Ret tt (file_write file (take (file_room file) (logical N q))))
  ∧ (file_writable file = false → save_queue N q file = Ret tt file).
Proof.
  intros Hwf. pose proof Hwf as (_ & ? & _). unfold save_queue.
  split; intros ->; [|done].
  rewrite Z.sub_0_r, u32_small by lia.
  rewrite save_queue_from_ok by (done || lia).
  change (Z.to_nat 0) with 0%nat. rewrite drop_0, app_nil_l.
  do 2 f_equal.
  destruct (decide (file_room file ≤ Z.to_nat (size q))%nat).
  - by rewrite Nat.min_r by lia.
  - rewrite Nat.min_l by lia.
    by rewrite !take_ge by (rewrite logical_length; lia).
Qed.

(** X9. [save_queue] rewrites a file that opens with the logical sequence of
    the queue, offset 0 first, cut off where writing fails; a file that does
    not open is left as it is, and nothing is reported either way. *)
Theorem save_queue_spec (q : Queue) (file : File) :
  wf N q →
  (file_writable file = true →
     save_queue N q file
     = Ret tt (file_write file (take (file_room file) (logical N q))))
  ∧ (file_writable file = false → save_queue N q file = Ret tt file).
Proof. exact (save_queue_ok q file). Qed.

(** X10. A queue saved to a file that accepts all its values and loaded again
    has the same logical sequence, with [begin] back at 0. *)
Theorem save_load_roundtrip (q queue : Queue) (file : File) :
  wf N q → length (array queue) = Z.to_nat N →
  file_writable file = true → (Z.to_nat (size q) ≤ file_room file)%nat →
  ∃ file' q', save_queue N q file = Ret tt file'
              ∧ load_queue N queue file' = Some q'
              ∧ wf N q' ∧ begin q' = 0 ∧ size q' = size q
              ∧ logical N q' = logical N q.
Proof.
  intros Hwf Hlen Hw Hroom. pose proof Hwf as (_ & ? & _).
  destruct (save_queue_ok q file Hwf) as [Hsave _].
  rewrite take_ge in Hsave by (rewrite logical_length; lia).
  destruct (load_queue_ok queue (file_write file (logical N q)) Hlen)
    as [_ Hload].
  destruct (Hload (logical N q) eq_refl) as [Hok _].
  destruct Hok as (q' & E & Hwf' & Hb' & Hl' & _);
    [rewrite logical_length; lia|].
  exists (file_write file (logical N q)), q'.
  split; [by apply Hsave|]. do 3 (split; [done|]). split; [|done].
  pose proof (logical_length q') as L1. pose proof (logical_length q) as L2.
  rewrite Hl' in L1. destruct Hwf' as (_ & ? & _). lia.
Qed.

(** ** The program *)

Lemma main_loaded (stack : Queue * Queue) (files : File * File) vs0 vs1 :
  file_ok N files.1 vs0 → file_ok N files.2 vs1 →
  length (array stack.1) = Z.to_nat N → length (array stack.2) = Z.to_nat N →
  ∃ q0 q1, load_queue N stack.1 files.1 = Some q0
           ∧ load_queue N stack.2 files.2 = Some q1
           ∧ wf N q0 ∧ wf N q1
           ∧ logical N q0 = vs0 ∧ logical N q1 = vs1.
Proof.
  intros (Hd0 & Hn0 & _) (Hd1 & Hn1 & _) Hl0 Hl1.
  destruct (load_queue_ok stack.1 files.1 Hl0) as [_ H0].
  destruct (H0 vs0 Hd0) as [H0' _].
  destruct (H0' Hn0) as (q0 & E0 & Hwf0 & _ & Hlog0 & _).
  destruct (load_queue_ok stack.2 files.2 Hl1) as [_ H1].
  destruct (H1 vs1 Hd1) as [H1' _].
  destruct (H1' Hn1) as (q1 & E1 & Hwf1 & _ & Hlog1 & _).
  exists q0, q1. done.
Qed.

Lemma main_saved q (file : File) vs :
  file_ok N file vs → wf N q →
  save_queue N q file = Ret tt (file_write file (logical N q)).
Proof.
  intros (_ & _ & Hw & Hroom) Hwf. pose proof Hwf as (_ & ? & _).
  destruct (save_queue_ok q file Hwf) as [Hs _]. rewrite Hs by done.
  by rewrite take_ge by (rewrite logical_length; lia).
Qed.

(** How [main] ends once both files are loaded and the selected command
    has returned. *)
Lemma main_returns mode argc cmd arg1 arg2 stack (files : File * File)
    q0 q1 rc out (qs : Queue * Queue) vs0 vs1 :
  2 ≤ argc → 0 ≤ cmd ≤ 6 →
  load_queue N stack.1 files.1 = Some q0 →
  load_queue N stack.2 files.2 = Some q1 →
  main_switch N mode cmd argc arg1 arg2 (q0, q1)
  = Some (Some (Ret (rc, out) qs)) →
  (rc = -1 →
     main N mode argc cmd true arg1 arg2 stack files
     = Some (Ret {| exit_code := 1; help_shown := false; printed := out |}
                 files))
  ∧ (rc = 0 → wf N qs.1 → wf N qs.2 →
     file_ok N files.1 vs0 → file_ok N files.2 vs1 →
     main N mode argc cmd true arg1 arg2 stack files
     = Some (Ret {| exit_code := 0; help_shown := false; printed := out |}
                 (rewritten files (logical N qs.1, logical N qs.2)))).
Proof.
  intros Hargc Hcmd E0 E1 Esw.
  assert (Hid : cli_command_from_arg cmd true = cmd).
  { unfold cli_command_from_arg.
    destruct (Z.ltb_spec cmd 0); [lia|]. by destruct (Z.ltb_spec 6 cmd); [lia|]. }
  unfold main. destruct (Z.ltb_spec argc 2); [lia|].
  rewrite Hid. destruct (Z.eqb_spec cmd (-1)); [lia|].
  rewrite E0, E1. simpl. rewrite Esw. simpl. split.
  - by intros ->.
  - intros -> Hwf0 Hwf1 Hf0 Hf1. simpl.
    by rewrite (main_saved _ _ vs0), (main_saved _ _ vs1).
Qed.

Lemma queues_get_pick arg1 (queues : Queue * Queue) :
  arg1 = 1 ∨ arg1 = 2 → queues_get queues (arg1 - 1) = pick arg1 queues.
Proof. by intros [-> | ->]. Qed.

Lemma logical_put arg1 (queues : Queue * Queue) q :
  arg1 = 1 ∨ arg1 = 2 →
  (logical N (queues_set queues (arg1 - 1) q).1,
   logical N (queues_set queues (arg1 - 1) q).2)
  = put arg1 (logical N queues.1, logical N queues.2) (logical N q).
Proof. by intros [-> | ->]. Qed.

Lemma wf_queues_set (queues : Queue * Queue) n q :
  wf N queues.1 → wf N queues.2 → wf N q →
  wf N (queues_set queues n q).1 ∧ wf N (queues_set queues n q).2.
Proof. intros H1 H2 Hq. unfold queues_set. by destruct (n =? 0). Qed.

Lemma pick_logical arg1 (queues : Queue * Queue) :
  logical N (pick arg1 queues)
  = pick arg1 (logical N queues.1, logical N queues.2).
Proof. unfold pick. by destruct (arg1 =? 1). Qed.

(** X11. Whenever the program ends with a status other than 0, the two files
    are as they were: a command that fails, a bad command number or a
    missing argument never reaches [save_queue]. The status is 0 or 1. *)
Theorem main_failure_keeps_files mode argc cmd converted arg1 arg2
    (stack : Queue * Queue) (files files' : File * File) (e : Exit) :
  main N mode argc cmd converted arg1 arg2 stack files = Some (Ret e files') →
  (exit_code e = 0 ∨ exit_code e = 1)
  ∧ (exit_code e ≠ 0 → files' = files).
Proof.
  unfold main. intros H.
  destruct (argc <? 2); [by simplify_eq/=; auto|].
  destruct (_ =? -1); [by simplify_eq/=; auto|].
  destruct (load_queue N stack.1 files.1) as [q0|]; [|done].
  destruct (load_queue N stack.2 files.2) as [q1|]; [|done]. simpl in H.
  destruct (main_switch _ _ _ _ _ _ _) as [[[[rc out] qs|qs]|]|];
    simpl in H; try done; [|by simplify_eq/=; auto].
  destruct (rc =? -1); [by simplify_eq/=; auto|].
  destruct (save_queue N qs.1 files.1); [|done].
  destruct (save_queue N qs.2 _); [|done].
  simplify_eq/=. split; [by left|done].
Qed.

(** X12. With both files present, the add command puts the value, reduced to 32
    bits, in front of the sequence of the selected file and exits with 0;
    when that file already holds [N] values it exits with 1 and writes
    nothing. *)
Theorem main_add mode argc arg1 arg2 (stack : Queue * Queue)
    (files : File * File) vs0 vs1 :
  file_ok N files.1 vs0 → file_ok N files.2 vs1 →
  length (array stack.1) = Z.to_nat N → length (array stack.2) = Z.to_nat N →
  4 ≤ argc → arg1 = 1 ∨ arg1 = 2 →
  let vs := pick arg1 (vs0, vs1) in
  (Z.of_nat (length vs) < N →
     main N mode argc 0 true arg1 arg2 stack files
     = Some (Ret {| exit_code := 0; help_shown := false; printed := [] |}
                 (rewritten files (put arg1 (vs0, vs1) (u32 arg2 :: vs)))))
  ∧ (Z.of_nat (length vs) = N →
       main N mode argc 0 true arg1 arg2 stack files
       = Some (Ret {| exit_code := 1; help_shown := false; printed := [] |}
                   files)).
Proof.
  intros Hf0 Hf1 Hl0 Hl1 Hargc Harg vs.
  destruct (main_loaded stack files vs0 vs1 Hf0 Hf1 Hl0 Hl1)
    as (q0 & q1 & E0 & E1 & Hwf0 & Hwf1 & Hlog0 & Hlog1).
  set (queue := queues_get (q0, q1) (arg1 - 1)).
  assert (Hq : wf N queue) by by apply queues_get_wf.
  assert (Hvs : logical N queue = vs).
  { unfold queue. rewrite queues_get_pick, pick_logical by done. simpl.
    by rewrite Hlog0, Hlog1. }
  assert (Hsize : Z.of_nat (length vs) = size queue).
  { rewrite <- Hvs, logical_length. destruct Hq as (_ & ? & _). lia. }
  destruct (cli_get_queue_number_ok arg1 Harg) as [Hnum Hne].
  assert (Hsw : main_switch N mode 0 argc arg1 arg2 (q0, q1)
    = Some (Some (Ret ((queue_push_back N queue (u32 arg2)).1, [])
                      (queues_set (q0, q1) (arg1 - 1)
                         (queue_push_back N queue (u32 arg2)).2)))).
  { unfold main_switch, cli_add_to_queue. simpl.
    destruct (Z.ltb_spec (argc - 1) 3); [lia|]. rewrite Hnum, Hne.
    fold queue. by destruct (queue_push_back N queue (u32 arg2)). }
  split.
  - intros Hlt.
    destruct (queue_push_back_ok queue (u32 arg2) Hq)
      as (q' & E & Hwf' & _ & Hl'); [lia|].
    rewrite E in Hsw. simpl in Hsw.
    destruct (main_returns mode argc 0 arg1 arg2 stack files q0 q1 _ _ _
                vs0 vs1 ltac:(lia) ltac:(lia) E0 E1 Hsw) as [_ Hret].
    destruct (wf_queues_set (q0, q1) (arg1 - 1) q' Hwf0 Hwf1 Hwf').
    rewrite Hret by done. rewrite logical_put by done. simpl.
    by rewrite Hlog0, Hlog1, Hl', Hvs.
  - intros Hfull. rewrite queue_push_back_full in Hsw by lia. simpl in Hsw.
    by destruct (main_returns mode argc 0 arg1 arg2 stack files q0 q1 _ _ _
                   vs0 vs1 ltac:(lia) ltac:(lia) E0 E1 Hsw) as [-> _].
Qed.

(** X13. With both files present, the remove command deletes the first
    occurrence of the value from the sequence of the selected file and
    exits with 0; when the value does not occur it exits with 1 and writes
    nothing. *)
Theorem main_remove mode argc arg1 arg2 (stack : Queue * Queue)
    (files : File * File) vs0 vs1 :
  file_ok N files.1 vs0 → file_ok N files.2 vs1 →
  length (array stack.1) = Z.to_nat N → length (array stack.2) = Z.to_nat N →
  4 ≤ argc → arg1 = 1 ∨ arg1 = 2 →
  let vs := pick arg1 (vs0, vs1) in
  (u32 arg2 ∉ vs →
     main N mode argc 1 true arg1 arg2 stack files
     = Some (Ret {| exit_code := 1; help_shown := false; printed := [] |}
                 files))
  ∧ (∀ k : nat,
       vs !! k = Some (u32 arg2) →
       (∀ j, (j < k)%nat → vs !! j ≠ Some (u32 arg2)) →
       main N mode argc 1 true arg1 arg2 stack files
       = Some (Ret {| exit_code := 0; help_shown := false; printed := [] |}
                   (rewritten files (put arg1 (vs0, vs1) (delete k vs))))).
Proof.
  intros Hf0 Hf1 Hl0 Hl1 Hargc Harg vs.
  destruct (main_loaded stack files vs0 vs1 Hf0 Hf1 Hl0 Hl1)
    as (q0 & q1 & E0 & E1 & Hwf0 & Hwf1 & Hlog0 & Hlog1).
  set (queue := queues_get (q0, q1) (arg1 - 1)).
  assert (Hq : wf N queue) by by apply queues_get_wf.
  assert (Hvs : logical N queue = vs).
  { unfold queue. rewrite queues_get_pick, pick_logical by done. simpl.
    by rewrite Hlog0, Hlog1. }
  destruct (cli_remove_from_queue_ok (argc - 1) arg1 arg2 (q0, q1)
              Hwf0 Hwf1 ltac:(lia) Harg) as [Habsent Hpresent].
  fold queue in Habsent, Hpresent. rewrite Hvs in Habsent, Hpresent.
  split.
  - intros Hnot.
    assert (Hsw : main_switch N mode 1 argc arg1 arg2 (q0, q1)
                  = Some (Some (Ret (-1, []) (q0, q1)))).
    { unfold main_switch. simpl. by rewrite Habsent. }
    by destruct (main_returns mode argc 1 arg1 arg2 stack files q0 q1 _ _ _
                   vs0 vs1 ltac:(lia) ltac:(lia) E0 E1 Hsw) as [-> _].
  - intros k Hk Hfirst.
    destruct (Hpresent k Hk Hfirst) as (q' & E & Hwf' & _ & Hl').
    assert (Hsw : main_switch N mode 1 argc arg1 arg2 (q0, q1)
                  = Some (Some (Ret (0, [])
                                    (queues_set (q0, q1) (arg1 - 1) q')))).
    { unfold main_switch. simpl. by rewrite E. }
    destruct (main_returns mode argc 1 arg1 arg2 stack files q0 q1 _ _ _
                vs0 vs1 ltac:(lia) ltac:(lia) E0 E1 Hsw) as [_ Hret].
    destruct (wf_queues_set (q0, q1) (arg1 - 1) q' Hwf0 Hwf1 Hwf').
    rewrite Hret by done. rewrite logical_put by done. simpl.
    by rewrite Hlog0, Hlog1, Hl'.
Qed.

Lemma cli_dequeue_empty mode argc arg1 (queues : Queue * Queue) :
  wf N queues.1 → wf N queues.2 → 2 ≤ argc → arg1 = 1 ∨ arg1 = 2 →
  size (queues_get queues (arg1 - 1)) = 0 →
  cli_dequeue N mode argc arg1 queues = Ret (-1, []) queues.
Proof.
  intros Hwf1 Hwf2 Hargc Harg H0.
  destruct (cli_get_queue_number_ok arg1 Harg) as [Hnum Hne].
  unfold cli_dequeue. destruct (Z.ltb_spec argc 2); [lia|].
  rewrite Hnum, Hne. destruct mode.
  - rewrite queue_pop_back_empty by done. simpl. by rewrite queues_set_get.
  - rewrite queue_pop_front_empty by done. simpl. by rewrite queues_set_get.
Qed.

(** X14. With both files present, the dequeue command in the mode named FIFO
    prints the first value of the selected file and removes it, in the mode
    named LIFO prints the last value and removes it, and exits with 0; on an
    empty file it exits with 1 and writes nothing. *)
Theorem main_dequeue mode argc arg1 arg2 (stack : Queue * Queue)
    (files : File * File) vs0 vs1 :
  file_ok N files.1 vs0 → file_ok N files.2 vs1 →
  length (array stack.1) = Z.to_nat N → length (array stack.2) = Z.to_nat N →
  3 ≤ argc → arg1 = 1 ∨ arg1 = 2 →
  let vs := pick arg1 (vs0, vs1) in
  (vs = [] →
     main N mode argc 6 true arg1 arg2 stack files
     = Some (Ret {| exit_code := 1; help_shown := false; printed := [] |}
                 files))
  ∧ (mode = QUEUE_MODE_FIFO → ∀ x rest, vs = x :: rest →
       main N mode argc 6 true arg1 arg2 stack files
       = Some (Ret {| exit_code := 0; help_shown := false; printed := [x] |}
                   (rewritten files (put arg1 (vs0, vs1) rest))))
  ∧ (mode = QUEUE_MODE_LIFO → ∀ y rest, vs = rest ++ [y] →
       main N mode argc 6 true arg1 arg2 stack files
       = Some (Ret {| exit_code := 0; help_shown := false; printed := [y] |}
                   (rewritten files (put arg1 (vs0, vs1) rest)))).
Proof.
  intros Hf0 Hf1 Hl0 Hl1 Hargc Harg vs.
  destruct (main_loaded stack files vs0 vs1 Hf0 Hf1 Hl0 Hl1)
    as (q0 & q1 & E0 & E1 & Hwf0 & Hwf1 & Hlog0 & Hlog1).
  set (queue := queues_get (q0, q1) (arg1 - 1)).
  assert (Hq : wf N queue) by by apply queues_get_wf.
  assert (Hvs : logical N queue = vs).
  { unfold queue. rewrite queues_get_pick, pick_logical by done. simpl.
    by rewrite Hlog0, Hlog1. }
  assert (Hsize : Z.of_nat (length vs) = size queue).
  { rewrite <- Hvs, logical_length. destruct Hq as (_ & ? & _). lia. }
  destruct (cli_get_queue_number_ok arg1 Harg) as [Hnum Hne].
  assert (Hdone : ∀ v q' rest,
    cli_dequeue N mode (argc - 1) arg1 (q0, q1)
    = Ret (0, [v]) (queues_set (q0, q1) (arg1 - 1) q') →
    wf N q' → logical N q' = rest →
    main N mode argc 6 true arg1 arg2 stack files
    = Some (Ret {| exit_code := 0; help_shown := false; printed := [v] |}
                (rewritten files (put arg1 (vs0, vs1) rest)))).
  { intros v q' rest E Hwf' Hl'.
    assert (Hsw : main_switch N mode 6 argc arg1 arg2 (q0, q1)
                  = Some (Some (Ret (0, [v])
                                    (queues_set (q0, q1) (arg1 - 1) q')))).
    { unfold main_switch. simpl. by rewrite E. }
    destruct (main_returns mode argc 6 arg1 arg2 stack files q0 q1 _ _ _
                vs0 vs1 ltac:(lia) ltac:(lia) E0 E1 Hsw) as [_ Hret].
    destruct (wf_queues_set (q0, q1) (arg1 - 1) q' Hwf0 Hwf1 Hwf').
    rewrite Hret by done. rewrite logical_put by done. simpl.
    by rewrite Hlog0, Hlog1, Hl'. }
  split; [|split].
  - intros Hnil.
    assert (Hsw : main_switch N mode 6 argc arg1 arg2 (q0, q1)
                  = Some (Some (Ret (-1, []) (q0, q1)))).
    { unfold main_switch. simpl. rewrite cli_dequeue_empty; [done..|lia|done|].
      fold queue. rewrite Hnil in Hsize. simpl in Hsize. lia. }
    by destruct (main_returns mode argc 6 arg1 arg2 stack files q0 q1 _ _ _
                   vs0 vs1 ltac:(lia) ltac:(lia) E0 E1 Hsw) as [-> _].
  - intros -> x rest Hx.
    destruct (queue_pop_back_ok queue Hq) as (x' & q' & E & Hwf' & _ & Hl').
    { rewrite Hx in Hsize. simpl in Hsize. lia. }
    rewrite Hvs, Hx in Hl'. injection Hl' as <- Hl'.
    apply (Hdone x q' rest); [|done..].
    unfold cli_dequeue. destruct (Z.ltb_spec (argc - 1) 2); [lia|].
    rewrite Hnum, Hne. fold queue. by rewrite E.
  - intros -> y rest Hy.
    destruct (queue_pop_front_ok queue Hq)
      as (y' & q' & E & Hwf' & _ & _ & Hl').
    { rewrite Hy, length_app in Hsize. simpl in Hsize. lia. }
    rewrite Hvs, Hy in Hl'. apply app_inj_tail in Hl' as [Hl' <-].
    apply (Hdone y q' rest); [|done..].
    unfold cli_dequeue. destruct (Z.ltb_spec (argc - 1) 2); [lia|].
    rewrite Hnum, Hne. fold queue. by rewrite E.
Qed.


(** X16. With both files present, the two printing commands print the sequence
    of the selected file, after its length for command 2, exit with 0 and
    rewrite both files with the sequences they held. *)
Theorem main_print mode argc arg1 arg2 (stack : Queue * Queue)
    (files : File * File) vs0 vs1 :
  file_ok N files.1 vs0 → file_ok N files.2 vs1 →
  length (array stack.1) = Z.to_nat N → length (array stack.2) = Z.to_nat N →
  3 ≤ argc → arg1 = 1 ∨ arg1 = 2 →
  let vs := pick arg1 (vs0, vs1) in
  main N mode argc 3 true arg1 arg2 stack files
  = Some (Ret {| exit_code := 0; help_shown := false; printed := vs |}
              (rewritten files (vs0, vs1)))
  ∧ main N mode argc 2 true arg1 arg2 stack files
    = Some (Ret {| exit_code := 0; help_shown := false;
                   printed := Z.of_nat (length vs) :: vs |}
                (rewritten files (vs0, vs1))).
Proof.
  intros Hf0 Hf1 Hl0 Hl1 Hargc Harg vs.
  destruct (main_loaded stack files vs0 vs1 Hf0 Hf1 Hl0 Hl1)
    as (q0 & q1 & E0 & E1 & Hwf0 & Hwf1 & Hlog0 & Hlog1).
  set (queue := queues_get (q0, q1) (arg1 - 1)).
  assert (Hq : wf N queue) by by apply queues_get_wf.
  assert (Hvs : logical N queue = vs).
  { unfold queue. rewrite queues_get_pick, pick_logical by done. simpl.
    by rewrite Hlog0, Hlog1. }
  assert (Hsize : Z.of_nat (length vs) = size queue).
  { rewrite <- Hvs, logical_length. destruct Hq as (_ & ? & _). lia. }
  destruct (cli_print_ok (argc - 1) arg1 (q0, q1) Hwf0 Hwf1 ltac:(lia))
    as [Hok _].
  destruct (Hok Harg) as [Ec Es]. fold queue in Ec, Es.
  rewrite Hvs in Ec, Es. rewrite <- Hsize in Es.
  split.
  - assert (Hsw : main_switch N mode 3 argc arg1 arg2 (q0, q1)
                  = Some (Some (Ret (0, vs) (q0, q1)))).
    { unfold main_switch. simpl. by rewrite Ec. }
    destruct (main_returns mode argc 3 arg1 arg2 stack files q0 q1 _ _ _
                vs0 vs1 ltac:(lia) ltac:(lia) E0 E1 Hsw) as [_ Hret].
    rewrite Hret by done. simpl. by rewrite Hlog0, Hlog1.
  - assert (Hsw : main_switch N mode 2 argc arg1 arg2 (q0, q1)
                  = Some (Some (Ret (0, Z.of_nat (length vs) :: vs) (q0, q1)))).
    { unfold main_switch. simpl. by rewrite Es. }
    destruct (main_returns mode argc 2 arg1 arg2 stack files q0 q1 _ _ _
                vs0 vs1 ltac:(lia) ltac:(lia) E0 E1 Hsw) as [_ Hret].
    rewrite Hret by done. simpl. by rewrite Hlog0, Hlog1.
Qed.

(** ** How operations combine *)

(** X17. Removing at offset [size - 1] is [pop_front]: the same queue results.
    Removing at offset 0 leaves the logical sequence that [pop_back] leaves,
    but by shifting the elements, with [begin] where it was. *)
Theorem queue_remove_at_ends (q : Queue) :
  wf N q → 0 < size q →
  (∃ y q', queue_pop_front N q = Ret (0, Some y) q'
           ∧ queue_remove N q (size q - 1) = Ret tt q')
  ∧ (∃ x q' q'', queue_pop_back N q = (0, Some x, q')
                 ∧ queue_remove N q 0 = Ret tt q''
                 ∧ logical N q'' = logical N q' ∧ begin q'' = begin q).
Proof.
  intros Hwf Hpos. pose proof Hwf as (Hb & Hs & _). split.
  - destruct (queue_pop_front_ok q Hwf Hpos) as (y & q' & E & _).
    exists y, q'. split; [done|].
    unfold queue_pop_front in E. destruct (Z.eqb_spec (size q) 0); [lia|].
    destruct (queue_get_value N q _); [|done]. injection E as _ <-.
    unfold queue_remove. destruct (Z.ltb_spec (size q - 1) (size q)); [|lia].
    unfold for_ne. rewrite (u32_small (size q - 1)) by lia.
    rewrite (u32_small (begin q + _)) by lia.
    by rewrite Z.sub_diag.
  - destruct (queue_pop_back_ok q Hwf Hpos) as (x & q' & E & _ & _ & Hl').
    destruct (queue_remove_ok q 0 Hwf) as (q'' & E'' & _ & Hb'' & _ & _ & Hl'');
      [lia|].
    exists x, q', q''. split; [done|]. split; [done|]. split; [|done].
    rewrite Hl'', Hl'. done.
Qed.

(** X18. A value just pushed is found at offset 0. *)
Theorem push_back_find (q : Queue) (v : Z) :
  wf N q → size q < N →
  ∃ q', queue_push_back N q v = (0, q')
        ∧ queue_find N q' v = Ret (0, Some 0) q'.
Proof.
  intros Hwf Hlt.
  destruct (queue_push_back_ok q v Hwf Hlt) as (q' & E & Hwf' & _ & Hl').
  exists q'. split; [done|].
  destruct (queue_find_ok q' v Hwf') as [(k & Ef & Hk & _ & Hfirst)|[_ Hnot]].
  - destruct (decide (k = 0)) as [->|Hne]; [done|].
    exfalso. apply (Hfirst 0%nat); [lia|]. by rewrite Hl'.
  - exfalso. apply Hnot. rewrite Hl'. by left.
Qed.

(** X19. [main] never calls [queue_init]: when [.queue1] cannot be opened, the
    first queue is what the stack held at that place. If that happens to be
    a well-formed queue, the print command prints its sequence and the
    program then writes that sequence to [.queue1]. *)
Theorem main_missing_file mode argc arg2 (stack : Queue * Queue)
    (files : File * File) vs1 :
  file_data files.1 = None → file_writable files.1 = true →
  N ≤ Z.of_nat (file_room files.1) →
  file_ok N files.2 vs1 →
  wf N stack.1 → length (array stack.2) = Z.to_nat N →
  3 ≤ argc →
  main N mode argc 3 true 1 arg2 stack files
  = Some (Ret {| exit_code := 0; help_shown := false;
                 printed := logical N stack.1 |}
              (rewritten files (logical N stack.1, vs1))).
Proof.
  intros Hd0 Hw0 Hr0 Hf1 Hwf0 Hl1 Hargc.
  pose proof Hwf0 as (_ & Hs0 & Hl0). pose proof Hf1 as (Hd1 & Hn1 & _).
  destruct (load_queue_ok stack.1 files.1 Hl0) as [E0 _].
  specialize (E0 Hd0).
  destruct (load_queue_ok stack.2 files.2 Hl1) as [_ H1].
  destruct (H1 vs1 Hd1) as [H1' _].
  destruct (H1' Hn1) as (q1 & E1 & Hwf1 & _ & Hlog1 & _).
  destruct (cli_print_ok (argc - 1) 1 (stack.1, q1) Hwf0 Hwf1 ltac:(lia))
    as [Hok _].
  destruct (Hok (or_introl eq_refl)) as [Ec _]. simpl in Ec.
  unfold main. destruct (Z.ltb_spec argc 2); [lia|].
  change (cli_command_from_arg 3 true) with 3. simpl.
  rewrite E0, E1. simpl. unfold main_switch. simpl. rewrite Ec. simpl.
  destruct (save_queue_ok stack.1 files.1 Hwf0) as [Hsave _].
  rewrite Hsave by done.
  rewrite (main_saved q1 files.2 vs1) by done.
  rewrite take_ge by (rewrite logical_length; lia).
  by rewrite Hlog1.
Qed.

End engine.

(** ** The test configuration, [QUEUE_MAX_LENGTH = 5] *)

Lemma test_length_pos : 0 < 5.
Proof. reflexivity. Qed.

Lemma test_length_small : 5 < 2 ^ 31.
Proof. reflexivity. Qed.

Lemma wf_test_initial : wf 5 test_initial.
Proof. unfold wf; simpl. lia. Qed.

Lemma wf_test_queue1 : wf 5 test_queue1.
Proof. unfold wf; simpl. lia. Qed.

Lemma wf_test_queue2 : wf 5 test_queue2.
Proof. unfold wf; simpl. lia. Qed.

Lemma push_back_pop_back_lifo_test :
  Z.of_nat (length [1; 2; 3]) ≤ 5
  ∧ ∃ q' q'', push_all 5 [1; 2; 3] (queue_init 5) = Some q'
              ∧ pop_back_n 5 3 q' = Some ([3; 2; 1], q'')
              ∧ size q'' = 0.
Proof.
  split; [simpl; lia|].
  apply (push_back_pop_back_lifo 5 test_length_pos test_length_small
           (queue_init 5) [1; 2; 3]).
  - apply wf_queue_init. reflexivity.
  - reflexivity.
  - simpl; lia.
Defined.

Lemma push_back_pop_front_fifo_test :
  Z.of_nat (length [1; 2; 3]) ≤ 5
  ∧ ∃ q' q'', push_all 5 [1; 2; 3] (queue_init 5) = Some q'
              ∧ pop_front_n 5 3 q' = Some ([1; 2; 3], replicate 3 (begin q'), q'')
              ∧ size q'' = 0.
Proof.
  split; [simpl; lia|].
  apply (push_back_pop_front_fifo 5 test_length_pos test_length_small
           (queue_init 5) [1; 2; 3]).
  - apply wf_queue_init. reflexivity.
  - reflexivity.
  - simpl; lia.
Defined.

Lemma queue_remove_shifts_test :
  0 ≤ 3 < size test_initial
  ∧ ∃ q', queue_remove 5 test_initial 3 = Ret tt q'
          ∧ logical 5 q' = [1; 2; 3]
          ∧ ∃ q'', queue_remove 5 q' 0 = Ret tt q'' ∧ logical 5 q'' = [2; 3].
Proof.
  split; [simpl; lia|].
  destruct (queue_remove_shifts 5 test_length_pos test_length_small
              test_initial 3 wf_test_initial)
    as (q' & E & _ & _ & _ & _ & Hex); [simpl; lia|].
  exists q'. split; [exact E|]. apply Hex; reflexivity.
Defined.


(** C2. In the merge of queue-test.c ([[1,3,5]] with [[2,4]]) the scratch
    block is requested with [malloc(5)]: five bytes, room for one 32-bit
    value, not for five. The stores go to the words 0, 1, 2, 3, 4, which do
    lie among the first [self.size + other.size] words, but of these only
    word 0 is inside the block. *)
Theorem queue_merge_scratch_too_small :
  ∃ b, queue_merge_scratch 5 test_queue1 test_queue2 = Some b
       ∧ block_bytes b = size test_queue1 + size test_queue2
       ∧ block_bytes b / sizeof_uint32_t = 1
       ∧ block_stores b = [0; 1; 2; 3; 4]
       ∧ in_block b <$> block_stores b = [true; false; false; false; false].
Proof.
  destruct (queue_merge_scratch_overrun 5 test_length_pos test_length_small
              test_queue1 test_queue2 wf_test_queue1 wf_test_queue2)
    as (b & E & Hby & Hst & _); [simpl; lia..|].
  exists b. split; [exact E|]. split; [exact Hby|].
  rewrite Hst. unfold in_block. rewrite Hby. done.
Qed.

(** C3 does not hold as written: with sizes 4 and 3 and [N = 5] the call
    does not come back with a failure that leaves the queues as they
    were; it does not come back at all. *)
Lemma queue_merge_no_failure_result :
  size test_initial + size test_queue1 > 5
  ∧ ¬ ∃ r, queue_merge 5 (test_initial, test_queue1)
           = Ret r (test_initial, test_queue1).
Proof.
  split; [reflexivity|]. intros [r E]. discriminate E.
Qed.

Lemma queue_merge_over_capacity_aborts_test :
  5 < size test_initial + size test_queue1
  ∧ queue_merge 5 (test_initial, test_queue1)
    = Abort (test_initial, test_queue1)
  ∧ ¬ returns (queue_merge 5 (test_initial, test_queue1)).
Proof.
  split; [reflexivity|].
  apply (queue_merge_over_capacity_aborts 5 test_length_pos test_length_small
           test_initial test_queue1 wf_test_initial wf_test_queue1).
  reflexivity.
Defined.

Lemma queue_copy_to_logical_test :
  queue_copy_to 5 test_initial [9; 9; 9; 9; 9] = [1; 2; 3; 4] ++ [9]
  ∧ ∃ q, queue_run 5 [OpPushBack 1; OpPushBack 2; OpPushBack 3; OpPushBack 4;
                      OpPushBack 5; OpPopBack; OpPushBack 6] (queue_init 5)
         = Some q
         ∧ ((Z.to_nat (size q) ≤ length [9; 9; 9; 9; 9])%nat →
            queue_copy_to 5 q [9; 9; 9; 9; 9] = [6; 4; 3; 2; 1] ++ []).
Proof.
  split.
  - apply (proj1 (queue_copy_to_logical 5 test_length_pos test_length_small)
             test_initial [9; 9; 9; 9; 9] wf_test_initial).
    simpl; lia.
  - apply (proj2 (queue_copy_to_logical 5 test_length_pos test_length_small)
             [OpPushBack 1; OpPushBack 2; OpPushBack 3; OpPushBack 4;
              OpPushBack 5; OpPopBack; OpPushBack 6] [9; 9; 9; 9; 9]).
Defined.


Lemma cli_dequeue_mode_inverted_test :
  0 < size (queues_get (test_initial, test_queue2) (1 - 1))
  ∧ cli_dequeue 5 QUEUE_MODE_FIFO 2 1 (test_initial, test_queue2)
    = Ret (0, [1])
          ({| begin := 4; size := 3; array := [3; 4; 0; 1; 2] |}, test_queue2)
  ∧ cli_dequeue 5 QUEUE_MODE_LIFO 2 1 (test_initial, test_queue2)
    = Ret (0, [4])
          ({| begin := 3; size := 3; array := [3; 4; 0; 1; 2] |}, test_queue2).
Proof.
  split; [reflexivity|].
  destruct (cli_dequeue_mode_inverted 5 test_length_pos test_length_small
              2 1 (test_initial, test_queue2) wf_test_initial wf_test_queue2)
    as (_ & (x & q' & Eb & Ex & _) & (y & q'' & Ef & Ey & _) & _);
    [lia|left; reflexivity|reflexivity|].
  injection Eb as <- <-. injection Ef as <- <-.
  split; [exact Ex|exact Ey].
Defined.


(** ** Further runs in the test configuration *)

Lemma file_ok_test_file1 : file_ok 5 test_file1 [1; 3; 5].
Proof. unfold file_ok; simpl. repeat split; lia. Qed.

Lemma file_ok_test_file2 : file_ok 5 test_file2 [2; 4].
Proof. unfold file_ok; simpl. repeat split; lia. Qed.

Lemma file_ok_test_file_full : file_ok 5 test_file_full [1; 2; 3; 4; 5].
Proof. unfold file_ok; simpl. repeat split; lia. Qed.

Lemma queue_find_first_test :
  (∃ k, queue_find 5 test_initial 3 = Ret (0, Some k) test_initial
        ∧ 0 ≤ k < size test_initial
        ∧ logical 5 test_initial !! Z.to_nat k = Some 3
        ∧ ∀ j, (j < Z.to_nat k)%nat → logical 5 test_initial !! j ≠ Some 3)
  ∨ (queue_find 5 test_initial 3 = Ret (-1, None) test_initial
     ∧ 3 ∉ logical 5 test_initial).
Proof.
  apply (queue_find_first 5 test_length_small test_initial 3).
  apply wf_test_initial.
Defined.

Lemma push_back_pop_back_restores_test :
  size test_initial < 5
  ∧ ∃ q1 q2, queue_push_back 5 test_initial 15 = (0, q1)
             ∧ queue_pop_back 5 q1 = (0, Some 15, q2)
             ∧ begin q2 = begin test_initial ∧ size q2 = size test_initial
             ∧ logical 5 q2 = logical 5 test_initial.
Proof.
  split; [reflexivity|].
  apply (push_back_pop_back_restores 5 test_length_pos test_length_small
           test_initial 15 wf_test_initial).
  reflexivity.
Defined.

Lemma failing_call_unchanged_test :
  ((queue_push_back 5 test_initial 10).1 = -1 ↔ size test_initial = 5)
  ∧ ((queue_pop_back 5 test_initial).1.1 = -1 ↔ size test_initial = 0).
Proof.
  destruct (failing_call_unchanged 5 test_length_pos test_length_small
              test_initial 10 wf_test_initial) as (H1 & _ & H2 & _).
  split; [exact H1|exact H2].
Defined.


Lemma queue_remove_at_ends_test :
  0 < size test_initial
  ∧ ∃ y q', queue_pop_front 5 test_initial = Ret (0, Some y) q'
            ∧ queue_remove 5 test_initial (size test_initial - 1) = Ret tt q'.
Proof.
  split; [reflexivity|].
  apply (queue_remove_at_ends 5 test_length_pos test_length_small
           test_initial wf_test_initial).
  reflexivity.
Defined.

Lemma push_back_find_test :
  size test_initial < 5
  ∧ ∃ q', queue_push_back 5 test_initial 15 = (0, q')
          ∧ queue_find 5 q' 15 = Ret (0, Some 0) q'.
Proof.
  split; [reflexivity|].
  apply (push_back_find 5 test_length_pos test_length_small
           test_initial 15 wf_test_initial).
  reflexivity.
Defined.

Lemma cli_remove_from_queue_first_test :
  logical 5 test_initial !! 2%nat = Some (u32 3)
  ∧ ∃ queue',
      cli_remove_from_queue 5 3 1 3 (test_initial, test_queue2)
      = Some (Ret 0 (queue', test_queue2))
      ∧ logical 5 queue' = [1; 2; 4].
Proof.
  split; [reflexivity|].
  destruct (cli_remove_from_queue_first 5 test_length_pos test_length_small
              3 1 3 (test_initial, test_queue2) wf_test_initial wf_test_queue2)
    as [_ H]; [lia|left; reflexivity|].
  destruct (H 2%nat) as (queue' & E & _ & _ & Hl).
  - reflexivity.
  - intros [|[|j]] Hj; [discriminate| discriminate|lia].
  - exists queue'. split; [exact E|exact Hl].
Defined.


Lemma cli_find_bit_filter_test :
  cli_find_bit 5 3 1 1 (test_queue1, test_queue2)
  = Some (Ret (0, [3]) (test_queue1, test_queue2))
  ∧ cli_find_bit 5 3 1 32 (test_queue1, test_queue2) = None.
Proof.
  destruct (cli_find_bit_filter 5 test_length_small 3 1 1
              (test_queue1, test_queue2) wf_test_queue1 wf_test_queue2)
    as (H1 & _); [lia|left; reflexivity|].
  destruct (cli_find_bit_filter 5 test_length_small 3 1 32
              (test_queue1, test_queue2) wf_test_queue1 wf_test_queue2)
    as (_ & _ & H32); [lia|left; reflexivity|].
  split; [apply H1; lia|apply H32; reflexivity].
Defined.

Lemma load_queue_spec_test :
  (∃ q', load_queue 5 test_initial test_file1 = Some q' ∧ wf 5 q'
         ∧ begin q' = 0 ∧ logical 5 q' = [1; 3; 5]
         ∧ drop 3 (array q') = drop 3 (array test_initial))
  ∧ load_queue 3 {| begin := 0; size := 0; array := [0; 0; 0] |}
               test_file_full
    = None.
Proof.
  split.
  - destruct (load_queue_spec 5 test_length_pos test_length_small
                test_initial test_file1) as [_ H]; [reflexivity|].
    destruct (H [1; 3; 5]) as [Hok _]; [reflexivity|].
    apply Hok. simpl; lia.
  - assert (0 < 3) as H3 by reflexivity.
    assert (3 < 2 ^ 31) as H3' by reflexivity.
    destruct (load_queue_spec 3 H3 H3'
                {| begin := 0; size := 0; array := [0; 0; 0] |}
                test_file_full) as [_ H]; [reflexivity|].
    destruct (H [1; 2; 3; 4; 5]) as [_ Hover]; [reflexivity|].
    apply Hover. simpl; lia.
Defined.

Lemma save_queue_spec_test :
  save_queue 5 test_initial test_file_missing
  = Ret tt (file_write test_file_missing [1; 2; 3; 4]).
Proof.
  destruct (save_queue_spec 5 test_length_small
              test_initial test_file_missing wf_test_initial) as [H _].
  apply H. reflexivity.
Defined.

Lemma save_load_roundtrip_test :
  ∃ file' q', save_queue 5 test_initial test_file_missing = Ret tt file'
              ∧ load_queue 5 test_queue1 file' = Some q'
              ∧ wf 5 q' ∧ begin q' = 0 ∧ size q' = size test_initial
              ∧ logical 5 q' = logical 5 test_initial.
Proof.
  apply (save_load_roundtrip 5 test_length_pos test_length_small
           test_initial test_queue1 test_file_missing wf_test_initial).
  - reflexivity.
  - reflexivity.
  - simpl; lia.
Defined.

Lemma main_failure_keeps_files_test :
  main 5 QUEUE_MODE 4 0 true 1 9 (test_initial, test_initial)
       (test_file_full, test_file2)
  = Some (Ret {| exit_code := 1; help_shown := false; printed := [] |}
              (test_file_full, test_file2))
  ∧ (1 ≠ 0 → (test_file_full, test_file2) = (test_file_full, test_file2)).
Proof.
  assert (E : main 5 QUEUE_MODE 4 0 true 1 9 (test_initial, test_initial)
                (test_file_full, test_file2)
              = Some (Ret {| exit_code := 1; help_shown := false;
                             printed := [] |}
                          (test_file_full, test_file2)))
    by reflexivity.
  split; [exact E|].
  exact (proj2 (main_failure_keeps_files 5 QUEUE_MODE 4 0 true 1 9
                  (test_initial, test_initial) (test_file_full, test_file2)
                  (test_file_full, test_file2) _ E)).
Defined.

Lemma main_add_test :
  main 5 QUEUE_MODE 4 0 true 2 7 (test_initial, test_initial)
       (test_file1, test_file2)
  = Some (Ret {| exit_code := 0; help_shown := false; printed := [] |}
              (rewritten (test_file1, test_file2) ([1; 3; 5], [7; 2; 4]))).
Proof.
  destruct (main_add 5 test_length_pos test_length_small QUEUE_MODE 4 2 7
              (test_initial, test_initial) (test_file1, test_file2)
              [1; 3; 5] [2; 4] file_ok_test_file1 file_ok_test_file2)
    as [H _]; [reflexivity|reflexivity|lia|right; reflexivity|].
  apply H. simpl; lia.
Defined.

Lemma main_remove_test :
  main 5 QUEUE_MODE 4 1 true 1 3 (test_initial, test_initial)
       (test_file1, test_file2)
  = Some (Ret {| exit_code := 0; help_shown := false; printed := [] |}
              (rewritten (test_file1, test_file2) ([1; 5], [2; 4]))).
Proof.
  destruct (main_remove 5 test_length_pos test_length_small QUEUE_MODE 4 1 3
              (test_initial, test_initial) (test_file1, test_file2)
              [1; 3; 5] [2; 4] file_ok_test_file1 file_ok_test_file2)
    as [_ H]; [reflexivity|reflexivity|lia|left; reflexivity|].
  apply (H 1%nat); [reflexivity|].
  intros [|j] Hj; [discriminate|lia].
Defined.

Lemma main_dequeue_test :
  main 5 QUEUE_MODE_LIFO 3 6 true 1 0 (test_initial, test_initial)
       (test_file1, test_file2)
  = Some (Ret {| exit_code := 0; help_shown := false; printed := [5] |}
              (rewritten (test_file1, test_file2) ([1; 3], [2; 4])))
  ∧ main 5 QUEUE_MODE_FIFO 3 6 true 1 0 (test_initial, test_initial)
         (test_file1, test_file2)
    = Some (Ret {| exit_code := 0; help_shown := false; printed := [1] |}
                (rewritten (test_file1, test_file2) ([3; 5], [2; 4]))).
Proof.
  split.
  - destruct (main_dequeue 5 test_length_pos test_length_small
                QUEUE_MODE_LIFO 3 1 0
                (test_initial, test_initial) (test_file1, test_file2)
                [1; 3; 5] [2; 4] file_ok_test_file1 file_ok_test_file2)
      as (_ & _ & H); [reflexivity|reflexivity|lia|left; reflexivity|].
    apply (H eq_refl 5 [1; 3]). reflexivity.
  - destruct (main_dequeue 5 test_length_pos test_length_small
                QUEUE_MODE_FIFO 3 1 0
                (test_initial, test_initial) (test_file1, test_file2)
                [1; 3; 5] [2; 4] file_ok_test_file1 file_ok_test_file2)
      as (_ & H & _); [reflexivity|reflexivity|lia|left; reflexivity|].
    apply (H eq_refl 1 [3; 5]). reflexivity.
Defined.


Lemma main_print_test :
  main 5 QUEUE_MODE 3 3 true 1 0 (test_initial, test_initial)
       (test_file1, test_file2)
  = Some (Ret {| exit_code := 0; help_shown := false; printed := [1; 3; 5] |}
              (rewritten (test_file1, test_file2) ([1; 3; 5], [2; 4])))
  ∧ main 5 QUEUE_MODE 3 2 true 1 0 (test_initial, test_initial)
         (test_file1, test_file2)
    = Some (Ret {| exit_code := 0; help_shown := false;
                   printed := [3; 1; 3; 5] |}
                (rewritten (test_file1, test_file2) ([1; 3; 5], [2; 4]))).
Proof.
  apply (main_print 5 test_length_pos test_length_small QUEUE_MODE 3 1 0
           (test_initial, test_initial) (test_file1, test_file2)
           [1; 3; 5] [2; 4] file_ok_test_file1 file_ok_test_file2).
  - reflexivity.
  - reflexivity.
  - lia.
  - left; reflexivity.
Defined.

Lemma main_missing_file_test :
  main 5 QUEUE_MODE 3 3 true 1 0 (test_initial, test_queue1)
       (test_file_missing, test_file2)
  = Some (Ret {| exit_code := 0; help_shown := false;
                 printed := [1; 2; 3; 4] |}
              (rewritten (test_file_missing, test_file2)
                         ([1; 2; 3; 4], [2; 4]))).
Proof.
  apply (main_missing_file 5 test_length_pos test_length_small QUEUE_MODE 3 0
           (test_initial, test_queue1) (test_file_missing, test_file2) [2; 4]).
  - reflexivity.
  - reflexivity.
  - simpl; lia.
  - apply file_ok_test_file2.
  - apply wf_test_initial.
  - reflexivity.
  - lia.
Defined.
